(** * graph_search.py: grid map, search nodes and the priority frontier

    A shallow embedding of [src/graph_search.py] and of the parts of the
    Python runtime it relies on (tuple comparison, [list.remove],
    [set.remove], numpy indexing and [Lib/heapq.py]).

    Conventions of the embedding:
    - Python 3 semantics.  Integers are [Z]; costs are taken to be
      integers (the default [cost=0] of [SearchNode]).
    - A call that may raise returns an [outcome]; objects mutated in place
      ([self] of [GridMap] and of [PriorityQ], the list handed to
      [heapq]) are threaded explicitly, and the state reached when an
      exception escapes is returned together with the exception.
    - [print] appends one record to an explicit standard output.
    - Text is ASCII. *)

From Stdlib Require Import ZArith Lia Ascii String.
From stdpp Require Import base list gmap strings sorting.

Local Open Scope Z_scope.

(** ** Python runtime: exceptions, results, standard output *)

Inductive exn : Type :=
  | IndexError
  | TypeError
  | ValueError
  | KeyError
  | RecursionError
  | UserError (cls : string).

Inductive outcome (A : Type) : Type :=
  | Ok (a : A)
  | Raise (e : exn).
Arguments Ok {A} a.
Arguments Raise {A} e.

Definition is_ok {A} (o : outcome A) : bool :=
  match o with Ok _ => true | Raise _ => false end.

(** The two error classes the specification names.  Neither is defined or
    raised anywhere in [graph_search.py]. *)
Definition MapFormatError : exn := UserError "MapFormatError".
Definition EmptyFrontierError : exn := UserError "EmptyFrontierError".

(** One argument of a [print] call. *)
Inductive pyarg : Type :=
  | PStr (s : string)
  | PInt (z : Z)
  | PLines (l : list string).

(** Standard output: one entry per [print] call, oldest first. *)
Definition stdout : Type := list (list pyarg).

(** ** States and actions *)

(** A state is a [(row, col)] tuple; [_Y = 0] selects the row and
    [_X = 1] the column. *)
Definition State : Type := (Z * Z)%type.
Definition Action : Type := string.

Definition _ACTIONS : list Action := ["u"; "d"; "l"; "r"]%string.
Definition _ACTIONS_2 : list Action :=
  ["u"; "d"; "l"; "r"; "ne"; "nw"; "sw"; "se"]%string.

Definition s_Y (s : State) : Z := fst s.
Definition s_X (s : State) : Z := snd s.

(** ** Strings: [str.rstrip] and [str.lower] on ASCII text *)

Definition is_space (a : ascii) : bool :=
  let n := nat_of_ascii a in
  ((9 <=? n) && (n <=? 13) || (28 <=? n) && (n <=? 32))%nat.

Definition is_empty_str (s : string) : bool :=
  match s with EmptyString => true | _ => false end.

Fixpoint rstrip (s : string) : string :=
  match s with
  | EmptyString => EmptyString
  | String a s' =>
      let r := rstrip s' in
      if is_empty_str r && is_space a then EmptyString else String a r
  end.

Definition lower_ascii (a : ascii) : ascii :=
  let n := nat_of_ascii a in
  if ((65 <=? n) && (n <=? 90))%nat then ascii_of_nat (n + 32) else a.

Fixpoint lower (s : string) : string :=
  match s with
  | EmptyString => EmptyString
  | String a s' => String (lower_ascii a) (lower s')
  end.

(** ** numpy: a two-dimensional boolean array *)

Abbreviation Grid := (list (list bool)).

(** [np.zeros((rows, cols), dtype=bool)] *)
Definition np_zeros (nrows ncols : nat) : Grid :=
  replicate nrows (replicate ncols false).

(** An index into an axis of length [n]: negative indices count from the
    end, anything outside [-n, n) raises [IndexError]. *)
Definition np_index (n : nat) (i : Z) : outcome nat :=
  if (0 <=? i) && (i <? Z.of_nat n) then Ok (Z.to_nat i)
  else if (- Z.of_nat n <=? i) && (i <? 0) then Ok (Z.to_nat (i + Z.of_nat n))
  else Raise IndexError.

(** [grid[i, j]] *)
Definition np_get (g : Grid) (i j : Z) : outcome bool :=
  match np_index (length g) i with
  | Raise e => Raise e
  | Ok r =>
      match g !! r with
      | None => Raise IndexError
      | Some row =>
          match np_index (length row) j with
          | Raise e => Raise e
          | Ok c =>
              match row !! c with
              | None => Raise IndexError
              | Some b => Ok b
              end
          end
      end
  end.

(** [grid[r][c] = v] for non-negative [r], [c] *)
Definition np_set (g : Grid) (r c : nat) (v : bool) : outcome Grid :=
  match g !! r with
  | None => Raise IndexError
  | Some row =>
      if (c <? length row)%nat then Ok (<[r := <[c := v]> row]> g)
      else Raise IndexError
  end.

(** ** class GridMap *)

Record GridMap : Type := mkGridMap {
  rows : option Z;
  cols : option Z;
  goal : option State;
  init_pos : option State;
  occupancy_grid : option Grid
}.

(** The attribute values set by [__init__] before any map is read. *)
Definition GridMap_blank : GridMap :=
  {| rows := None; cols := None; goal := None; init_pos := None;
     occupancy_grid := None |}.

Definition set_rows (v : Z) (m : GridMap) : GridMap :=
  {| rows := Some v; cols := cols m; goal := goal m; init_pos := init_pos m;
     occupancy_grid := occupancy_grid m |}.
Definition set_cols (v : Z) (m : GridMap) : GridMap :=
  {| rows := rows m; cols := Some v; goal := goal m; init_pos := init_pos m;
     occupancy_grid := occupancy_grid m |}.
Definition set_goal (v : State) (m : GridMap) : GridMap :=
  {| rows := rows m; cols := cols m; goal := Some v; init_pos := init_pos m;
     occupancy_grid := occupancy_grid m |}.
Definition set_init_pos (v : State) (m : GridMap) : GridMap :=
  {| rows := rows m; cols := cols m; goal := goal m; init_pos := Some v;
     occupancy_grid := occupancy_grid m |}.
Definition set_occupancy_grid (v : Grid) (m : GridMap) : GridMap :=
  {| rows := rows m; cols := cols m; goal := goal m; init_pos := init_pos m;
     occupancy_grid := Some v |}.

(** [max(xs)] of a list of lengths; [ValueError] on the empty list. *)
Definition py_max (xs : list nat) : outcome nat :=
  match xs with
  | [] => Raise ValueError
  | x :: xs' => Ok (foldl Nat.max x xs')
  end.

Definition ch_x : ascii := "x"%char.
Definition ch_g : ascii := "g"%char.
Definition ch_i : ascii := "i"%char.

(** [lines[r][c]] for non-negative [r], [c] *)
Definition char_at (lines : list string) (r c : nat) : outcome ascii :=
  match lines !! r with
  | None => Raise IndexError
  | Some line =>
      match String.get c line with
      | None => Raise IndexError
      | Some ch => Ok ch
      end
  end.

(** The body of the inner loop of [read_map] for one cell [(r, c)]. *)
Definition read_cell (lines : list string) (r c : nat) (self : GridMap)
  : GridMap * outcome unit :=
  match char_at lines r c with
  | Raise e => (self, Raise e)
  | Ok ch =>
      let pos : State := (Z.of_nat r, Z.of_nat c) in
      let marks (m : GridMap) : GridMap :=
        if Ascii.eqb ch ch_g then set_goal pos m
        else if Ascii.eqb ch ch_i then set_init_pos pos m
        else m in
      if Ascii.eqb ch ch_x then
        match occupancy_grid self with
        | None => (self, Raise TypeError)
        | Some g =>
            match np_set g r c true with
            | Raise e => (self, Raise e)
            | Ok g' => (marks (set_occupancy_grid g' self), Ok tt)
            end
        end
      else (marks self, Ok tt)
  end.

(** [for c in range(self.cols): ...] on row [r] *)
Fixpoint read_row (lines : list string) (r : nat) (cs : list nat)
    (self : GridMap) : GridMap * outcome unit :=
  match cs with
  | [] => (self, Ok tt)
  | c :: cs' =>
      match read_cell lines r c self with
      | (self', Ok _) => read_row lines r cs' self'
      | (self', Raise e) => (self', Raise e)
      end
  end.

(** [for r in range(self.rows): ...] *)
Fixpoint read_rows (lines : list string) (ncols : nat) (rs : list nat)
    (self : GridMap) : GridMap * outcome unit :=
  match rs with
  | [] => (self, Ok tt)
  | r :: rs' =>
      match read_row lines r (seq 0 ncols) self with
      | (self', Ok _) => read_rows lines ncols rs' self'
      | (self', Raise e) => (self', Raise e)
      end
  end.

(** [GridMap.read_map], on the list returned by [map_file.readlines()]. *)
Definition read_map (self : GridMap) (file_lines : list string)
  : GridMap * stdout * outcome unit :=
  let lines := map (fun l => lower (rstrip l)) file_lines in
  let nrows := length lines in
  let self1 := set_rows (Z.of_nat nrows) self in
  match py_max (map String.length lines) with
  | Raise e => (self1, [], Raise e)
  | Ok ncols =>
      let self2 := set_cols (Z.of_nat ncols) self1 in
      let out := [ [PStr "rows"; PInt (Z.of_nat nrows)];
                   [PStr "cols"; PInt (Z.of_nat ncols)];
                   [PLines lines] ] in
      let self3 := set_occupancy_grid (np_zeros nrows ncols) self2 in
      let '(self4, res) := read_rows lines ncols (seq 0 nrows) self3 in
      (self4, out, res)
  end.

(** [GridMap.__init__] *)
Definition GridMap_init (map_file : option (list string))
  : GridMap * stdout * outcome unit :=
  match map_file with
  | None => (GridMap_blank, [], Ok tt)
  | Some file_lines => read_map GridMap_blank file_lines
  end.

(** [GridMap.is_goal] *)
Definition is_goal (self : GridMap) (s : State) : outcome bool :=
  match goal self with
  | None => Raise TypeError
  | Some g => Ok ((s_X s =? s_X g) && (s_Y s =? s_Y g))
  end.

(** The first half of [transition]: the position the action aims at,
    after the "stay on the board" tests. *)
Definition move (self : GridMap) (s : State) (a : Action)
  : stdout * outcome State :=
  if String.eqb a "u" then
    ([], Ok (if s_Y s >? 0 then (s_Y s - 1, s_X s) else s))
  else if String.eqb a "d" then
    match rows self with
    | None => ([], Raise TypeError)
    | Some nrows =>
        ([], Ok (if s_Y s <? nrows - 1 then (s_Y s + 1, s_X s) else s))
    end
  else if String.eqb a "l" then
    ([], Ok (if s_X s >? 0 then (s_Y s, s_X s - 1) else s))
  else if String.eqb a "r" then
    match cols self with
    | None => ([], Raise TypeError)
    | Some ncols =>
        ([], Ok (if s_X s <? ncols - 1 then (s_Y s, s_X s + 1) else s))
    end
  else ([ [PStr "Unknown action:"; PStr a] ], Ok s).

(** [GridMap.transition].  The method assigns to no attribute of [self],
    so the map is only read. *)
Definition transition (self : GridMap) (s : State) (a : Action)
  : stdout * outcome State :=
  match move self s a with
  | (out, Raise e) => (out, Raise e)
  | (out, Ok new_pos) =>
      match occupancy_grid self with
      | None => (out, Raise TypeError)
      | Some g =>
          match np_get g (fst new_pos) (snd new_pos) with
          | Raise e => (out, Raise e)
          | Ok true => (out, Ok s)
          | Ok false => (out, Ok new_pos)
          end
      end
  end.

(** [GridMap.uninformed_heuristic]: the constant [0.0]. *)
Definition uninformed_heuristic (self : GridMap) (s : State) : Z := 0.

(** ** class SearchNode *)

(** Python objects have an identity, and a class that defines neither
    [__eq__] nor [__lt__] is compared by it: [node_id] stands for [id(x)]. *)
#[warnings="-register-all"]
Inductive SearchNode : Type := mkSearchNode {
  node_id : positive;
  state : State;
  actions : list Action;
  parent : option SearchNode;
  parent_action : option Action;
  cost : Z
}.

(** [SearchNode.__init__(s, A, parent=None, parent_action=None, cost=0)],
    allocating the object at identity [oid]. *)
Definition SearchNode_init (oid : positive) (s : State) (A : list Action)
    (parent : option SearchNode) (parent_action : option Action) (cost : Z)
  : SearchNode :=
  {| node_id := oid; state := s; actions := A; parent := parent;
     parent_action := parent_action; cost := cost |}.

(** Equality of two node records, identity included. *)
Fixpoint SearchNode_eqb (x y : SearchNode) : bool :=
  Pos.eqb (node_id x) (node_id y)
  && bool_decide (state x = state y)
  && bool_decide (actions x = actions y)
  && match parent x, parent y with
     | Some p, Some q => SearchNode_eqb p q
     | None, None => true
     | _, _ => false
     end
  && bool_decide (parent_action x = parent_action y)
  && (cost x =? cost y).

(** [x is y], and also [x == y] since the class defines no [__eq__]: the
    two references hold the same identity, and then the same object. *)
Definition same_object (x y : SearchNode) : bool := SearchNode_eqb x y.

(** [backpath]: the body is the two empty lists and the return. *)
Definition backpath (node : SearchNode)
  : list State * list (option Action) :=
  let path : list State := [] in
  let action_path : list (option Action) := [] in
  (path, action_path).

(** ** heapq (Lib/heapq.py), over a comparison that may raise *)

(** [l[i] = x] *)
Definition setitem {A} (l : list A) (i : nat) (x : A) : outcome (list A) :=
  if (i <? length l)%nat then Ok (<[i := x]> l) else Raise IndexError.

Definition parent_pos (pos : nat) : nat := ((pos - 1) / 2)%nat.

(** The statement [heap[pos] = newitem] that ends both sifting loops. *)
Definition place {A} (heap : list A) (pos : nat) (newitem : A)
  : list A * outcome unit :=
  match setitem heap pos newitem with
  | Ok heap' => (heap', Ok tt)
  | Raise e => (heap, Raise e)
  end.

Section heapq.
Context {A : Type}.
Variable lt : A -> A -> outcome bool.

(** The [while pos > startpos] loop of [_siftdown].  [pos] at least
    halves in every iteration, so [fuel >= pos] iterations suffice. *)
Fixpoint siftdown_loop (fuel : nat) (heap : list A) (startpos pos : nat)
    (newitem : A) : list A * outcome unit :=
  let finish := place heap pos newitem in
  match fuel with
  | O => finish
  | S fuel' =>
      if (startpos <? pos)%nat then
        let parentpos := parent_pos pos in
        match heap !! parentpos with
        | None => (heap, Raise IndexError)
        | Some parent =>
            match lt newitem parent with
            | Raise e => (heap, Raise e)
            | Ok true =>
                match setitem heap pos parent with
                | Raise e => (heap, Raise e)
                | Ok heap' =>
                    siftdown_loop fuel' heap' startpos parentpos newitem
                end
            | Ok false => finish
            end
        end
      else finish
  end.

(** [_siftdown(heap, startpos, pos)] *)
Definition siftdown (heap : list A) (startpos pos : nat)
  : list A * outcome unit :=
  match heap !! pos with
  | None => (heap, Raise IndexError)
  | Some newitem => siftdown_loop pos heap startpos pos newitem
  end.

(** The choice of the smaller child in [_siftup]:
    [if rightpos < endpos and not heap[childpos] < heap[rightpos]]. *)
Definition smaller_child (heap : list A) (endpos childpos : nat)
  : outcome nat :=
  let rightpos := (childpos + 1)%nat in
  if (rightpos <? endpos)%nat then
    match heap !! childpos, heap !! rightpos with
    | Some c, Some r =>
        match lt c r with
        | Raise e => Raise e
        | Ok b => Ok (if negb b then rightpos else childpos)
        end
    | _, _ => Raise IndexError
    end
  else Ok childpos.

(** The [while childpos < endpos] loop of [_siftup]; it returns the
    leaf position reached.  [pos] grows in every iteration, so
    [fuel + pos >= endpos] iterations suffice. *)
Fixpoint siftup_loop (fuel : nat) (heap : list A) (endpos pos : nat)
  : list A * outcome nat :=
  match fuel with
  | O => (heap, Ok pos)
  | S fuel' =>
      let childpos := (2 * pos + 1)%nat in
      if (childpos <? endpos)%nat then
        match smaller_child heap endpos childpos with
        | Raise e => (heap, Raise e)
        | Ok childpos' =>
            match heap !! childpos' with
            | None => (heap, Raise IndexError)
            | Some child =>
                match setitem heap pos child with
                | Raise e => (heap, Raise e)
                | Ok heap' => siftup_loop fuel' heap' endpos childpos'
                end
            end
        end
      else (heap, Ok pos)
  end.

(** [_siftup(heap, pos)] *)
Definition siftup (heap : list A) (pos : nat) : list A * outcome unit :=
  let endpos := length heap in
  let startpos := pos in
  match heap !! pos with
  | None => (heap, Raise IndexError)
  | Some newitem =>
      match siftup_loop endpos heap endpos pos with
      | (heap1, Raise e) => (heap1, Raise e)
      | (heap1, Ok pos1) =>
          match place heap1 pos1 newitem with
          | (heap2, Raise e) => (heap2, Raise e)
          | (heap2, Ok _) => siftdown heap2 startpos pos1
          end
      end
  end.

(** [for i in reversed(range(n//2)): _siftup(x, i)] *)
Fixpoint heapify_loop (x : list A) (idxs : list nat)
  : list A * outcome unit :=
  match idxs with
  | [] => (x, Ok tt)
  | i :: idxs' =>
      match siftup x i with
      | (x', Ok _) => heapify_loop x' idxs'
      | (x', Raise e) => (x', Raise e)
      end
  end.

(** [heapq.heapify(x)] *)
Definition heapify (x : list A) : list A * outcome unit :=
  let n := length x in
  heapify_loop x (rev (seq 0 (n / 2))).

(** [heapq.heappush(heap, item)] *)
Definition heappush (heap : list A) (item : A) : list A * outcome unit :=
  let heap1 := heap ++ [item] in
  siftdown heap1 0 (length heap1 - 1).

(** [heapq.heappop(heap)] *)
Definition heappop (heap : list A) : list A * outcome A :=
  match last heap with
  | None => (heap, Raise IndexError)
  | Some lastelt =>
      let heap1 := removelast heap in
      match heap1 with
      | [] => (heap1, Ok lastelt)
      | returnitem :: _ =>
          match siftup (<[0%nat := lastelt]> heap1) 0 with
          | (heap2, Ok _) => (heap2, Ok returnitem)
          | (heap2, Raise e) => (heap2, Raise e)
          end
      end
  end.
End heapq.

(** ** class PriorityQ *)

(** An element of [self.l]: the tuple [(cost, x)]. *)
Definition entry : Type := (Z * SearchNode)%type.

Definition entry_state (e : entry) : State := state (snd e).

(** [(c1, x1) < (c2, x2)]: the tuples are compared at their first
    differing component; when the costs are equal that is the pair of
    nodes, which are equal only if they are one object and which define no
    ordering. *)
Definition entry_lt (a b : entry) : outcome bool :=
  if fst a =? fst b then
    if same_object (snd a) (snd b) then Ok false else Raise TypeError
  else Ok (fst a <? fst b).

(** [(c1, x1) == (c2, x2)] *)
Definition entry_eqb (a b : entry) : bool :=
  (fst a =? fst b) && same_object (snd a) (snd b).

Record PriorityQ : Type := mkPriorityQ {
  l : list entry;
  s : gset State
}.

(** [PriorityQ.__init__] *)
Definition PriorityQ_init : PriorityQ := {| l := []; s := ∅ |}.

(** [PriorityQ.__contains__] *)
Definition contains (self : PriorityQ) (x : State) : bool :=
  bool_decide (x ∈ s self).

(** [list.remove(y)]: drops the first element equal to [y]. *)
Fixpoint list_remove (y : entry) (xs : list entry) : outcome (list entry) :=
  match xs with
  | [] => Raise ValueError
  | e :: xs' =>
      if entry_eqb e y then Ok xs'
      else match list_remove y xs' with
           | Ok r => Ok (e :: r)
           | Raise err => Raise err
           end
  end.

(** [set.remove(x)] *)
Definition set_remove (x : State) (st : gset State) : outcome (gset State) :=
  if bool_decide (x ∈ st) then Ok (st ∖ {[x]}) else Raise KeyError.

(** The [for y in self.l] loop of [replace], which stops at the first
    entry whose state is that of [x]. *)
Definition replace_scan (x : SearchNode) (self : PriorityQ)
  : PriorityQ * outcome unit :=
  match list_find (fun y => entry_state y = state x) (l self) with
  | None => (self, Ok tt)
  | Some (_, y) =>
      match list_remove y (l self) with
      | Raise e => (self, Raise e)
      | Ok l' =>
          let self1 := {| l := l'; s := s self |} in
          match set_remove (entry_state y) (s self) with
          | Raise e => (self1, Raise e)
          | Ok s' => ({| l := l'; s := s' |}, Ok tt)
          end
      end
  end.

(** [PriorityQ.push] and [PriorityQ.replace] call each other; [depth] is
    the number of call frames left before [RecursionError]. *)
Fixpoint push_at (depth : nat) (x : SearchNode) (cost : Z) (self : PriorityQ)
  : PriorityQ * outcome unit :=
  match depth with
  | O => (self, Raise RecursionError)
  | S depth' =>
      if bool_decide (state x ∈ s self) then replace_at depth' x cost self
      else
        match heappush entry_lt (l self) (cost, x) with
        | (l', Raise e) => ({| l := l'; s := s self |}, Raise e)
        | (l', Ok _) => ({| l := l'; s := {[state x]} ∪ s self |}, Ok tt)
        end
  end
with replace_at (depth : nat) (x : SearchNode) (new_cost : Z)
    (self : PriorityQ) : PriorityQ * outcome unit :=
  match depth with
  | O => (self, Raise RecursionError)
  | S depth' =>
      match replace_scan x self with
      | (self1, Raise e) => (self1, Raise e)
      | (self1, Ok _) =>
          match heapify entry_lt (l self1) with
          | (l', Raise e) => ({| l := l'; s := s self1 |}, Raise e)
          | (l', Ok _) => push_at depth' x new_cost {| l := l'; s := s self1 |}
          end
      end
  end.

(** [sys.getrecursionlimit()] *)
Definition recursion_limit : nat := 1000.

(** [PriorityQ.push] *)
Definition push (x : SearchNode) (cost : Z) (self : PriorityQ)
  : PriorityQ * outcome unit :=
  push_at recursion_limit x cost self.

(** [PriorityQ.replace] *)
Definition replace (x : SearchNode) (new_cost : Z) (self : PriorityQ)
  : PriorityQ * outcome unit :=
  replace_at recursion_limit x new_cost self.

(** [PriorityQ.pop] *)
Definition pop (self : PriorityQ) : PriorityQ * outcome SearchNode :=
  match heappop entry_lt (l self) with
  | (l', Raise e) => ({| l := l'; s := s self |}, Raise e)
  | (l', Ok x) =>
      let self1 := {| l := l'; s := s self |} in
      match set_remove (entry_state x) (s self) with
      | Raise e => (self1, Raise e)
      | Ok s' => ({| l := l'; s := s' |}, Ok (snd x))
      end
  end.

(** [PriorityQ.peak] *)
Definition peak (self : PriorityQ) : outcome SearchNode :=
  match l self with
  | [] => Raise IndexError
  | x :: _ => Ok (snd x)
  end.

(** [PriorityQ.__len__] *)
Definition len (self : PriorityQ) : nat := length (l self).

(** [PriorityQ.get_cost]: [None] when no entry has the state of [x]. *)
Definition get_cost (self : PriorityQ) (x : SearchNode) : option Z :=
  match list_find (fun y => entry_state y = state x) (l self) with
  | None => None
  | Some (_, y) => Some (fst y)
  end.

(** ** Predicates used in the statements *)

(** A map object as [read_map] leaves it: [rows] and [cols] are set and
    [occupancy_grid] is an array of that shape. *)
Definition grid_shape (m : GridMap) (nrows ncols : nat) (g : Grid) : Prop :=
  rows m = Some (Z.of_nat nrows) /\ cols m = Some (Z.of_nat ncols) /\
  occupancy_grid m = Some g /\
  length g = nrows /\ Forall (fun row => length row = ncols) g.

Definition in_bounds (nrows ncols : nat) (st : State) : Prop :=
  0 <= s_Y st < Z.of_nat nrows /\ 0 <= s_X st < Z.of_nat ncols.

(** The cell of an in-bounds state is occupied. *)
Definition occupied (g : Grid) (st : State) : Prop :=
  exists row, g !! Z.to_nat (s_Y st) = Some row /\
              row !! Z.to_nat (s_X st) = Some true.

(** The cell of an in-bounds state is free. *)
Definition free (g : Grid) (st : State) : Prop :=
  exists row, g !! Z.to_nat (s_Y st) = Some row /\
              row !! Z.to_nat (s_X st) = Some false.

(** Where an action points, before any test: one cell up, down, left or
    right of [st]. *)
Definition target (st : State) (a : Action) : State :=
  if String.eqb a "u" then (s_Y st - 1, s_X st)
  else if String.eqb a "d" then (s_Y st + 1, s_X st)
  else if String.eqb a "l" then (s_Y st, s_X st - 1)
  else if String.eqb a "r" then (s_Y st, s_X st + 1)
  else st.

(** The lines as [read_map] sees them. *)
Definition clean_lines (file_lines : list string) : list string :=
  map (fun ln => lower (rstrip ln)) file_lines.

(** Every line has the same length once stripped. *)
Definition rectangular (file_lines : list string) (ncols : nat) : Prop :=
  Forall (fun ln => String.length ln = ncols) (clean_lines file_lines).

(** The cell [(r, c)] of the text holds the character [ch]. *)
Definition cell_is (lines : list string) (ch : ascii) (r c : nat) : bool :=
  match char_at lines r c with
  | Ok a => Ascii.eqb a ch
  | Raise _ => false
  end.

(** The cells holding [ch] among rows [rs] and columns [cs], in row-major
    order. *)
Definition marker_cells (lines : list string) (ch : ascii)
    (rs cs : list nat) : list State :=
  r ← rs; c ← cs;
  if cell_is lines ch r c then [(Z.of_nat r, Z.of_nat c)] else [].

Definition marker_positions (ch : ascii) (file_lines : list string)
    (ncols : nat) : list State :=
  let lines := clean_lines file_lines in
  marker_cells lines ch (seq 0 (length lines)) (seq 0 ncols).

(** The last element of a list of positions, or [d] when there is none. *)
Definition last_or (d : option State) (ps : list State) : option State :=
  match last ps with
  | Some p => Some p
  | None => d
  end.

(** The array of a map object has [nrows] rows of [ncols] cells. *)
Definition grid_dims (self : GridMap) (nrows ncols : nat) : Prop :=
  exists g, occupancy_grid self = Some g /\ length g = nrows /\
            Forall (fun row => length row = ncols) g.

(** The only exceptions the loops can raise. *)
Definition builtin_exn (e : exn) : Prop :=
  e = IndexError \/ e = TypeError \/ e = ValueError.

(** ** Example data *)

Definition nl : string := String (ascii_of_nat 10) EmptyString.

(** The 3x3 map of the specification, without the blanks. *)
Definition map_3x3 : list string :=
  [("i0x" ++ nl)%string; ("00x" ++ nl)%string; ("00g" ++ nl)%string].

Definition demo_map : GridMap := fst (fst (read_map GridMap_blank map_3x3)).

Definition demo_grid : Grid :=
  [[false; false; true]; [false; false; true]; [false; false; false]].

(** A map whose second row is shorter than its first. *)
Definition ragged_map : list string :=
  [("i0g" ++ nl)%string; ("0" ++ nl)%string].

(** Maps without a goal, with two goals, and the empty file. *)
Definition map_no_goal : list string := [("i0" ++ nl)%string].
Definition map_two_goals : list string :=
  [("ig" ++ nl)%string; ("0g" ++ nl)%string].
Definition map_empty : list string := [].

(** ** The path the specification asks of [backpath] *)

(** The nodes from [n] back to the root, following [parent]. *)
Fixpoint parent_chain (n : SearchNode) : list SearchNode :=
  n :: match parent n with
       | Some p => parent_chain p
       | None => []
       end.

(** The [parent_action] of every node of the chain that has a parent. *)
Fixpoint chain_actions (n : SearchNode) : list (option Action) :=
  match parent n with
  | Some p => parent_action n :: chain_actions p
  | None => []
  end.

(** Both sequences reversed, so that they run from the initial state to
    the state of [n]. *)
Definition extract_path_spec (n : SearchNode)
  : list State * list (option Action) :=
  (rev (map state (parent_chain n)), rev (chain_actions n)).

Definition root_node : SearchNode :=
  SearchNode_init 1 (0, 0) _ACTIONS None None 0.
Definition child_node : SearchNode :=
  SearchNode_init 2 (1, 0) _ACTIONS (Some root_node) (Some "d"%string) 1.

(** ** Heap order on a list *)

(** The entry at [p] is no larger than the entry at [c]. *)
Definition edge_le {A} (key : A -> Z) (h : list A) (p c : nat) : Prop :=
  forall a b, h !! p = Some a -> h !! c = Some b -> key a <= key b.

(** Every position whose parent is at [start] or later is no smaller than
    its parent.  With [start = 0] this is the heap invariant of [heapq]. *)
Definition heap_from {A} (key : A -> Z) (h : list A) (start : nat) : Prop :=
  forall c, (0 < c)%nat -> (start <= parent_pos c)%nat ->
            edge_le key h (parent_pos c) c.

Definition is_heap {A} (key : A -> Z) (h : list A) : Prop :=
  heap_from key h 0.

(** The same with a hole at [pos]: the entry stored there is ignored, and
    the children of [pos] are compared with the parent of [pos]. *)
Definition heap_hole {A} (key : A -> Z) (h : list A) (start pos : nat)
  : Prop :=
  (forall c, (0 < c)%nat -> (start <= parent_pos c)%nat ->
             parent_pos c <> pos -> c <> pos ->
             edge_le key h (parent_pos c) c) /\
  (forall c, (0 < c)%nat -> parent_pos c = pos ->
             (0 < pos)%nat -> (start <= parent_pos pos)%nat ->
             edge_le key h (parent_pos pos) c).

(** [x] is no larger than the children of [pos]. *)
Definition below_ok {A} (key : A -> Z) (h : list A) (pos : nat) (x : A)
  : Prop :=
  forall c b, (0 < c)%nat -> parent_pos c = pos -> h !! c = Some b ->
              key x <= key b.

(** [pos] lies in the subtree rooted at [start]. *)
Inductive desc (start : nat) : nat -> Prop :=
  | desc_root : desc start start
  | desc_child c : (0 < c)%nat -> desc start (parent_pos c) -> desc start c.

(** ** Invariants of the frontier *)

Definition states_of (es : list entry) : list State := entry_state <$> es.
Definition costs_of (es : list entry) : list Z := fst <$> es.

(** No two entries share a state, and the membership set is the set of
    the states stored in the list. *)
Definition one_entry_per_state (q : PriorityQ) : Prop :=
  NoDup (states_of (l q)) /\ s q = list_to_set (states_of (l q)).

Definition heap_ordered (q : PriorityQ) : Prop := is_heap fst (l q).

(** One operation of the frontier, for runs of several. *)
Inductive op : Type :=
  | OpPush (x : SearchNode) (cost : Z)
  | OpReplace (x : SearchNode) (new_cost : Z)
  | OpPop.

Definition run_op (o : op) (q : PriorityQ) : PriorityQ * outcome unit :=
  match o with
  | OpPush x c => push x c q
  | OpReplace x c => replace x c q
  | OpPop =>
      match pop q with
      | (q', Ok _) => (q', Ok tt)
      | (q', Raise e) => (q', Raise e)
      end
  end.

(** A run in which every operation returns normally. *)
Fixpoint run_ops (os : list op) (q : PriorityQ) : option PriorityQ :=
  match os with
  | [] => Some q
  | o :: os' =>
      match run_op o q with
      | (q', Ok _) => run_ops os' q'
      | (_, Raise _) => None
      end
  end.


(** The entries of the frontier whose state is not that of [x]. *)
Definition others (x : SearchNode) (q : PriorityQ) : list entry :=
  filter (fun e => entry_state e <> state x) (l q).

(** The entries of the frontier whose state is [st]. *)
Definition entries_for (st : State) (q : PriorityQ) : list entry :=
  filter (fun e => entry_state e = st) (l q).

(** Nodes of the scenarios: three nodes for the state [(0, 0)] with costs
    5, 3 and 7, and nodes for other states. *)
Definition node_a5 : SearchNode := SearchNode_init 1 (0, 0) _ACTIONS None None 5.
Definition node_a3 : SearchNode := SearchNode_init 2 (0, 0) _ACTIONS None None 3.
Definition node_a7 : SearchNode := SearchNode_init 3 (0, 0) _ACTIONS None None 7.
Definition node_b : SearchNode := SearchNode_init 4 (0, 1) _ACTIONS None None 1.
Definition node_c : SearchNode := SearchNode_init 5 (1, 0) _ACTIONS None None 2.
Definition node_d : SearchNode := SearchNode_init 6 (1, 1) _ACTIONS None None 2.
Definition node_d' : SearchNode := SearchNode_init 7 (1, 1) _ACTIONS None None 2.

(** The frontier holding [node_a3] alone. *)
Definition frontier_a3 : PriorityQ :=
  {| l := [(3, node_a3)]; s := {[ (0, 0) ]} |}.

(** The frontier after pushing [node_c] (cost 2), [node_b] (cost 1). *)
Definition frontier_cb : PriorityQ :=
  {| l := [(1, node_b); (2, node_c)]; s := {[ (0, 1); (1, 0) ]} |}.

(** The frontier left by pushing [node_c] and then [node_d], two nodes of
    different states and of the same cost 2. *)
Definition frontier_after_tie : PriorityQ :=
  fst (push node_d 2 (fst (push node_c 2 PriorityQ_init))).

(** ** Further definitions for the statements *)

(** The action that undoes [a]. *)
Definition opposite (a : Action) : Action :=
  if String.eqb a "u" then "d"
  else if String.eqb a "d" then "u"
  else if String.eqb a "l" then "r"
  else if String.eqb a "r" then "l"
  else a.

(** The cell [(r, c)] of the array holds [True]. *)
Definition grid_true (g : Grid) (r c : nat) : Prop :=
  exists row, g !! r = Some row /\ row !! c = Some true.

(** The value stored at the cell [(r, c)] of the array. *)
Definition grid_cell (g : Grid) (r c : nat) : option bool :=
  match g !! r with
  | Some row => row !! c
  | None => None
  end.

(** Every character of the string is white space. *)
Fixpoint all_space (ws : string) : bool :=
  match ws with
  | EmptyString => true
  | String a ws' => is_space a && all_space ws'
  end.

(** [fuel] successive calls of [pop], collecting the nodes returned:
    [[q.pop() for _ in range(fuel)]]. *)
Fixpoint pop_all (fuel : nat) (q : PriorityQ)
  : PriorityQ * outcome (list SearchNode) :=
  match fuel with
  | O => (q, Ok [])
  | S fuel' =>
      match pop q with
      | (q1, Raise e) => (q1, Raise e)
      | (q1, Ok x) =>
          match pop_all fuel' q1 with
          | (q2, Ok xs) => (q2, Ok (x :: xs))
          | (q2, Raise e) => (q2, Raise e)
          end
      end
  end.

(** * Properties of [GridMap] *)

Section grid_facts.
Variables (m : GridMap) (nrows ncols : nat) (g : Grid).
Hypothesis Hshape : grid_shape m nrows ncols g.

Lemma np_index_in_range (n : nat) (i : Z) :
  0 <= i < Z.of_nat n -> np_index n i = Ok (Z.to_nat i).
Proof.
  intros Hi. unfold np_index.
  destruct (0 <=? i) eqn:E1; [|lia].
  destruct (i <? Z.of_nat n) eqn:E2; [reflexivity|lia].
Qed.

Lemma np_get_in_bounds (st : State) :
  in_bounds nrows ncols st ->
  exists (row : list bool) (b : bool),
    g !! Z.to_nat (s_Y st) = Some row /\ row !! Z.to_nat (s_X st) = Some b /\
    np_get g (fst st) (snd st) = Ok b.
Proof.
  destruct Hshape as (_ & _ & _ & Hlen & Hrows).
  intros [Hy Hx]. unfold s_Y, s_X in *.
  destruct (lookup_lt_is_Some_2 g (Z.to_nat (fst st))) as [row Hrow]; [lia|].
  assert (length row = ncols) as Hrl.
  { rewrite Forall_forall in Hrows. apply Hrows.
    eapply list_elem_of_lookup_2; eauto. }
  destruct (lookup_lt_is_Some_2 row (Z.to_nat (snd st))) as [b Hb]; [lia|].
  exists row, b. split; [done|]. split; [done|].
  unfold np_get. rewrite np_index_in_range by lia. cbv beta iota.
  rewrite Hrow. rewrite np_index_in_range by lia. cbv beta iota.
  by rewrite Hb.
Qed.

Lemma transition_of_move (st new_pos : State) (out : stdout) (a : Action) :
  move m st a = (out, Ok new_pos) ->
  in_bounds nrows ncols new_pos ->
  exists (row : list bool) (b : bool),
    g !! Z.to_nat (s_Y new_pos) = Some row /\
    row !! Z.to_nat (s_X new_pos) = Some b /\
    transition m st a = (out, Ok (if b then st else new_pos)).
Proof.
  intros Hmove Hin.
  destruct (np_get_in_bounds new_pos Hin) as (row & b & Hrow & Hb & Hget).
  exists row, b. split; [done|]. split; [done|].
  unfold transition. rewrite Hmove.
  destruct Hshape as (_ & _ & -> & _). rewrite Hget. by destruct b.
Qed.

(** What the first half of [transition] computes for the four known
    actions: the target cell when it is on the board, [st] otherwise. *)
Lemma move_known (st : State) (a : Action) :
  in_bounds nrows ncols st -> a ∈ _ACTIONS ->
  exists new_pos,
    move m st a = ([], Ok new_pos) /\ in_bounds nrows ncols new_pos /\
    ((in_bounds nrows ncols (target st a) /\ new_pos = target st a) \/
     (~ in_bounds nrows ncols (target st a) /\ new_pos = st)).
Proof.
  destruct Hshape as (Hr & Hc & _).
  intros Hin Ha. unfold _ACTIONS in Ha.
  destruct st as [y x]. unfold in_bounds, s_Y, s_X in *; simpl in *.
  apply elem_of_cons in Ha as [->|Ha];
    [|apply elem_of_cons in Ha as [->|Ha];
      [|apply elem_of_cons in Ha as [->|Ha];
        [|apply elem_of_cons in Ha as [->|Ha];
          [|by apply elem_of_nil in Ha]]]];
  unfold move, target; simpl; rewrite ?Hr, ?Hc; unfold s_Y, s_X; simpl.
  - destruct (y >? 0) eqn:E; eexists; (split; [reflexivity|]);
      simpl; (split; [lia|]); [left|right]; (split; [lia|done]).
  - destruct (y <? Z.of_nat nrows - 1) eqn:E; eexists; (split; [reflexivity|]);
      simpl; (split; [lia|]); [left|right]; (split; [lia|done]).
  - destruct (x >? 0) eqn:E; eexists; (split; [reflexivity|]);
      simpl; (split; [lia|]); [left|right]; (split; [lia|done]).
  - destruct (x <? Z.of_nat ncols - 1) eqn:E; eexists; (split; [reflexivity|]);
      simpl; (split; [lia|]); [left|right]; (split; [lia|done]).
Qed.

End grid_facts.

Lemma move_unknown (m : GridMap) (st : State) (a : Action) :
  a ∉ _ACTIONS ->
  move m st a = ([ [PStr "Unknown action:"; PStr a] ], Ok st).
Proof.
  intros Ha. unfold move.
  destruct (String.eqb a "u") eqn:Eu.
  { apply String.eqb_eq in Eu. subst. exfalso. apply Ha. set_solver. }
  destruct (String.eqb a "d") eqn:Ed.
  { apply String.eqb_eq in Ed. subst. exfalso. apply Ha. set_solver. }
  destruct (String.eqb a "l") eqn:El.
  { apply String.eqb_eq in El. subst. exfalso. apply Ha. set_solver. }
  destruct (String.eqb a "r") eqn:Er.
  { apply String.eqb_eq in Er. subst. exfalso. apply Ha. set_solver. }
  reflexivity.
Qed.


(** C3.  For an in-bounds state and each of the four actions,
    [transition] returns a state without raising and without printing,
    and that state is the one it was given whenever the cell the action
    points at is off the grid or occupied.  (The result is a function of
    the map, the state and the action, and the map is not written to.) *)
Theorem transition_invalid_move_is_self_loop
    (m : GridMap) (nrows ncols : nat) (g : Grid) (st : State) (a : Action) :
  grid_shape m nrows ncols g ->
  in_bounds nrows ncols st ->
  a ∈ _ACTIONS ->
  exists st',
    transition m st a = ([], Ok st') /\
    (~ in_bounds nrows ncols (target st a) \/ occupied g (target st a) ->
     st' = st).
Proof.
  intros Hshape Hin Ha.
  destruct (move_known m nrows ncols g Hshape st a Hin Ha)
    as (new_pos & Hmove & Hnew & Hcases).
  destruct (transition_of_move m nrows ncols g Hshape st new_pos [] a Hmove Hnew)
    as (row & b & Hrow & Hb & Htr).
  eexists. split; [exact Htr|].
  intros Hbad. destruct b; [done|].
  destruct Hcases as [[Hti ->]|[_ ->]]; [|done].
  destruct Hbad as [Hout|(row' & Hrow' & Hocc)]; [done|].
  rewrite Hrow in Hrow'. injection Hrow' as <-. congruence.
Qed.

Lemma demo_map_shape : grid_shape demo_map 3 3 demo_grid.
Proof.
  repeat split; try reflexivity. repeat constructor.
Defined.

Lemma transition_invalid_move_is_self_loop_witness :
  exists st',
    transition demo_map (0, 1) "r" = ([], Ok st') /\
    (~ in_bounds 3 3 (target (0, 1) "r") \/ occupied demo_grid (target (0, 1) "r") ->
     st' = (0, 1)).
Proof.
  apply (transition_invalid_move_is_self_loop demo_map 3 3 demo_grid (0, 1) "r").
  - exact demo_map_shape.
  - unfold in_bounds; simpl; lia.
  - unfold _ACTIONS. set_solver.
Defined.

(** C10.  From an in-bounds free cell, each of the four actions leads
    to a cell that is again in bounds and free. *)
Theorem transition_stays_free
    (m : GridMap) (nrows ncols : nat) (g : Grid) (st : State) (a : Action) :
  grid_shape m nrows ncols g ->
  in_bounds nrows ncols st ->
  free g st ->
  a ∈ _ACTIONS ->
  exists st',
    transition m st a = ([], Ok st') /\
    in_bounds nrows ncols st' /\ free g st'.
Proof.
  intros Hshape Hin Hfree Ha.
  destruct (move_known m nrows ncols g Hshape st a Hin Ha)
    as (new_pos & Hmove & Hnew & _).
  destruct (transition_of_move m nrows ncols g Hshape st new_pos [] a Hmove Hnew)
    as (row & b & Hrow & Hb & Htr).
  eexists. split; [exact Htr|].
  destruct b; [done|]. split; [done|]. by exists row.
Qed.

Lemma transition_stays_free_witness :
  exists st',
    transition demo_map (1, 1) "l" = ([], Ok st') /\
    in_bounds 3 3 st' /\ free demo_grid st'.
Proof.
  apply (transition_stays_free demo_map 3 3 demo_grid (1, 1) "l").
  - exact demo_map_shape.
  - unfold in_bounds; simpl; lia.
  - exists [false; false; true]. split; reflexivity.
  - unfold _ACTIONS. set_solver.
Defined.

(** C9, as the code has it.  An action outside [u], [d], [l], [r] is
    reported on standard output and [transition] then returns the state it
    was given; nothing is raised. *)
Theorem transition_unknown_action_prints_and_stays
    (m : GridMap) (nrows ncols : nat) (g : Grid) (st : State) (a : Action) :
  grid_shape m nrows ncols g ->
  in_bounds nrows ncols st ->
  a ∉ _ACTIONS ->
  transition m st a = ([ [PStr "Unknown action:"; PStr a] ], Ok st).
Proof.
  intros Hshape Hin Ha.
  pose proof (move_unknown m st a Ha) as Hmove.
  destruct (transition_of_move m nrows ncols g Hshape st st _ a Hmove Hin)
    as (row & b & _ & _ & Htr).
  rewrite Htr. by destruct b.
Qed.

Lemma transition_unknown_action_prints_and_stays_witness :
  transition demo_map (0, 0) "ne"
  = ([ [PStr "Unknown action:"; PStr "ne"] ], Ok (0, 0)).
Proof.
  apply (transition_unknown_action_prints_and_stays demo_map 3 3 demo_grid).
  - exact demo_map_shape.
  - unfold in_bounds; simpl; lia.
  - unfold _ACTIONS. intros H.
    repeat (apply elem_of_cons in H as [H|H]; [discriminate H|]).
    by apply elem_of_nil in H.
Defined.

(** C9, as stated, fails: the diagonal action [ne] of [_ACTIONS_2] is not
    one of the four, and [transition] returns a state for it. *)
Lemma transition_unknown_action_no_error :
  (("ne" : Action) ∈ _ACTIONS_2) /\ (("ne" : Action) ∉ _ACTIONS) /\
  snd (transition demo_map (0, 0) "ne") = Ok (0, 0) /\
  (~ exists e, snd (transition demo_map (0, 0) "ne") = Raise e).
Proof.
  split; [unfold _ACTIONS_2; set_solver|].
  split.
  { unfold _ACTIONS. intros H.
    repeat (apply elem_of_cons in H as [H|H]; [discriminate H|]).
    by apply elem_of_nil in H. }
  split; [reflexivity|].
  intros [e He]. vm_compute in He. discriminate He.
Qed.

(** * Properties of [GridMap.read_map] *)

Lemma last_or_app (d : option State) (ps qs : list State) :
  last_or d (ps ++ qs) = last_or (last_or d ps) qs.
Proof.
  unfold last_or. destruct qs as [|q qs] using rev_ind.
  - rewrite app_nil_r. simpl. by destruct (last ps).
  - rewrite app_assoc, !last_snoc. done.
Qed.

Lemma np_set_dims (g : Grid) (nrows ncols r c : nat) :
  length g = nrows -> Forall (fun row => length row = ncols) g ->
  (r < nrows)%nat -> (c < ncols)%nat ->
  exists g', np_set g r c true = Ok g' /\ length g' = nrows /\
             Forall (fun row => length row = ncols) g'.
Proof.
  intros Hlen Hrows Hr Hc.
  destruct (lookup_lt_is_Some_2 g r) as [row Hrow]; [lia|].
  assert (length row = ncols) as Hrl.
  { rewrite Forall_forall in Hrows. apply Hrows.
    eapply list_elem_of_lookup_2; eauto. }
  unfold np_set. rewrite Hrow.
  destruct (c <? length row)%nat eqn:E; [|apply Nat.ltb_ge in E; lia].
  eexists. split; [reflexivity|]. split; [by rewrite length_insert|].
  apply Forall_insert; [done|]. by rewrite length_insert.
Qed.

Lemma ch_g_not_x : Ascii.eqb ch_g ch_x = false.
Proof. reflexivity. Qed.

Lemma read_cell_ok (lines : list string) (nrows ncols r c : nat)
    (self : GridMap) (ch : ascii) :
  char_at lines r c = Ok ch ->
  (r < nrows)%nat -> (c < ncols)%nat ->
  grid_dims self nrows ncols ->
  exists self',
    read_cell lines r c self = (self', Ok tt) /\
    grid_dims self' nrows ncols /\
    rows self' = rows self /\ cols self' = cols self /\
    goal self' = last_or (goal self) (marker_cells lines ch_g [r] [c]) /\
    init_pos self' = last_or (init_pos self) (marker_cells lines ch_i [r] [c]).
Proof.
  intros Hch Hr Hc (g & Hg & Hlen & Hrows).
  unfold read_cell, marker_cells, cell_is. simpl. rewrite Hch, Hg.
  destruct (np_set_dims g nrows ncols r c Hlen Hrows Hr Hc)
    as (g' & -> & Hlen' & Hrows').
  destruct (Ascii.eqb ch ch_x) eqn:Ex.
  - apply Ascii.eqb_eq in Ex. subst ch. simpl.
    eexists. split; [reflexivity|]. simpl.
    split; [by exists g'|]. done.
  - destruct (Ascii.eqb ch ch_g) eqn:Eg.
    + apply Ascii.eqb_eq in Eg. subst ch. simpl.
      eexists. split; [reflexivity|]. simpl.
      split; [by exists g|]. done.
    + destruct (Ascii.eqb ch ch_i) eqn:Ei; simpl;
        (eexists; split; [reflexivity|]; simpl; split; [by exists g|done]).
Qed.

Lemma marker_cells_cons_col lines ch r c cs :
  marker_cells lines ch [r] (c :: cs)
  = marker_cells lines ch [r] [c] ++ marker_cells lines ch [r] cs.
Proof.
  unfold marker_cells. simpl. by rewrite !app_nil_r.
Qed.

Lemma marker_cells_cons_row lines ch r rs cs :
  marker_cells lines ch (r :: rs) cs
  = marker_cells lines ch [r] cs ++ marker_cells lines ch rs cs.
Proof.
  unfold marker_cells. simpl. by rewrite !app_nil_r.
Qed.

Lemma read_row_ok (lines : list string) (nrows ncols r : nat) (cs : list nat) :
  (r < nrows)%nat ->
  Forall (fun c => (c < ncols)%nat /\ is_ok (char_at lines r c) = true) cs ->
  forall self, grid_dims self nrows ncols ->
  exists self',
    read_row lines r cs self = (self', Ok tt) /\
    grid_dims self' nrows ncols /\
    rows self' = rows self /\ cols self' = cols self /\
    goal self' = last_or (goal self) (marker_cells lines ch_g [r] cs) /\
    init_pos self' = last_or (init_pos self) (marker_cells lines ch_i [r] cs).
Proof.
  intros Hr Hcs. induction Hcs as [|c cs [Hc Hok] _ IH]; intros self Hd.
  - exists self. repeat split; try done.
  - destruct (char_at lines r c) as [ch|] eqn:Hch; [|discriminate Hok].
    destruct (read_cell_ok lines nrows ncols r c self ch Hch Hr Hc Hd)
      as (self1 & Hcell & Hd1 & Hr1 & Hc1 & Hg1 & Hi1).
    destruct (IH self1 Hd1) as (self2 & Hrow & Hd2 & Hr2 & Hc2 & Hg2 & Hi2).
    exists self2. cbn [read_row]. rewrite Hcell, Hrow.
    split; [done|]. split; [done|].
    split; [congruence|]. split; [congruence|].
    rewrite !(marker_cells_cons_col _ _ _ c cs), !last_or_app.
    rewrite <- Hg1, <- Hi1. done.
Qed.

Lemma read_rows_ok (lines : list string) (nrows ncols : nat) (rs : list nat) :
  Forall (fun r => (r < nrows)%nat /\
            forall c, (c < ncols)%nat -> is_ok (char_at lines r c) = true) rs ->
  forall self, grid_dims self nrows ncols ->
  exists self',
    read_rows lines ncols rs self = (self', Ok tt) /\
    grid_dims self' nrows ncols /\
    rows self' = rows self /\ cols self' = cols self /\
    goal self' = last_or (goal self) (marker_cells lines ch_g rs (seq 0 ncols)) /\
    init_pos self'
      = last_or (init_pos self) (marker_cells lines ch_i rs (seq 0 ncols)).
Proof.
  intros Hrs. induction Hrs as [|r rs [Hr Hok] _ IH]; intros self Hd.
  - exists self. repeat split; try done.
  - destruct (read_row_ok lines nrows ncols r (seq 0 ncols) Hr) with (self := self)
      as (self1 & Hrow & Hd1 & Hr1 & Hc1 & Hg1 & Hi1); [|done|].
    { apply Forall_forall. intros c Hc%elem_of_seq. split; [lia|].
      apply Hok. lia. }
    destruct (IH self1 Hd1) as (self2 & Hrest & Hd2 & Hr2 & Hc2 & Hg2 & Hi2).
    exists self2. cbn [read_rows]. rewrite Hrow, Hrest.
    split; [done|]. split; [done|].
    split; [congruence|]. split; [congruence|].
    rewrite !(marker_cells_cons_row _ _ r rs), !last_or_app.
    rewrite <- Hg1, <- Hi1. done.
Qed.

Lemma string_get_lt (c : nat) (ln : string) :
  (c < String.length ln)%nat -> exists a, String.get c ln = Some a.
Proof.
  revert c. induction ln as [|a ln IH]; intros c Hc; simpl in *; [lia|].
  destruct c as [|c]; [by exists a|]. apply IH. lia.
Qed.

Lemma py_max_constant (n : nat) (xs : list nat) :
  xs <> [] -> Forall (fun x => x = n) xs -> py_max xs = Ok n.
Proof.
  intros Hne Hall. destruct xs as [|x xs]; [done|].
  apply Forall_cons in Hall as [-> Hall]. simpl. f_equal.
  induction xs as [|y ys IH]; [done|].
  apply Forall_cons in Hall as [-> Hall].
  simpl. rewrite Nat.max_id. apply IH; [discriminate|done].
Qed.

Lemma rectangular_char_at (file_lines : list string) (ncols r c : nat) :
  rectangular file_lines ncols ->
  (r < length file_lines)%nat -> (c < ncols)%nat ->
  is_ok (char_at (clean_lines file_lines) r c) = true.
Proof.
  intros Hrect Hr Hc. unfold rectangular in Hrect.
  destruct (lookup_lt_is_Some_2 (clean_lines file_lines) r) as [ln Hln].
  { unfold clean_lines. rewrite length_map. lia. }
  assert (String.length ln = ncols) as Hlen.
  { rewrite Forall_forall in Hrect. apply Hrect.
    eapply list_elem_of_lookup_2; eauto. }
  unfold char_at. rewrite Hln.
  destruct (string_get_lt c ln) as [a ->]; [lia|done].
Qed.

(** ** The exceptions of [read_map] *)

Lemma read_cell_exn lines r c self self' e :
  read_cell lines r c self = (self', Raise e) -> builtin_exn e.
Proof.
  unfold read_cell, char_at, np_set, builtin_exn.
  repeat (case_match; simplify_eq; try tauto); intros; simplify_eq; tauto.
Qed.

Lemma read_row_exn lines r cs :
  forall self self' e,
    read_row lines r cs self = (self', Raise e) -> builtin_exn e.
Proof.
  induction cs as [|c cs IH]; intros self self' e; simpl; [done|].
  destruct (read_cell lines r c self) as [self1 [[]|e1]] eqn:Hcell.
  - apply IH.
  - intros [= <- <-]. by eapply read_cell_exn.
Qed.

Lemma read_rows_exn lines ncols rs :
  forall self self' e,
    read_rows lines ncols rs self = (self', Raise e) -> builtin_exn e.
Proof.
  induction rs as [|r rs IH]; intros self self' e; simpl; [done|].
  destruct (read_row lines r (seq 0 ncols) self) as [self1 [[]|e1]] eqn:Hrow.
  - apply IH.
  - intros [= <- <-]. by eapply read_row_exn.
Qed.

Lemma read_map_exn self file_lines e :
  snd (read_map self file_lines) = Raise e -> builtin_exn e.
Proof.
  unfold read_map.
  destruct (py_max _) as [ncols|e1] eqn:Hmax.
  - destruct (read_rows _ _ _ _) as [self4 res] eqn:Hrows. simpl.
    intros ->. by eapply read_rows_exn.
  - simpl. intros [= <-]. unfold py_max in Hmax.
    destruct (map _ _); simplify_eq. unfold builtin_exn. tauto.
Qed.

(** ** A row shorter than the longest one *)

Lemma read_row_app lines r cs1 cs2 self :
  read_row lines r (cs1 ++ cs2) self
  = match read_row lines r cs1 self with
    | (self', Ok _) => read_row lines r cs2 self'
    | (self', Raise e) => (self', Raise e)
    end.
Proof.
  revert self. induction cs1 as [|c cs1 IH]; intros self; simpl; [done|].
  destruct (read_cell lines r c self) as [self1 [[]|e1]]; [apply IH|done].
Qed.

Lemma string_get_ge (c : nat) (ln : string) :
  (String.length ln <= c)%nat -> String.get c ln = None.
Proof.
  revert c. induction ln as [|a ln IH]; intros c Hc; simpl in *.
  - by destruct c.
  - destruct c as [|c]; [lia|]. apply IH. lia.
Qed.

Lemma read_row_short lines nrows ncols r ln self :
  lines !! r = Some ln -> (r < nrows)%nat ->
  (String.length ln < ncols)%nat ->
  grid_dims self nrows ncols ->
  snd (read_row lines r (seq 0 ncols) self) = Raise IndexError.
Proof.
  intros Hln Hr Hshort Hd.
  replace ncols with (String.length ln + S (ncols - S (String.length ln)))%nat
    at 1 by lia.
  rewrite seq_app, read_row_app.
  destruct (read_row_ok lines nrows ncols r (seq 0 (String.length ln)) Hr)
    with (self := self) as (self1 & -> & _); [|done|].
  { apply Forall_forall. intros c Hc%elem_of_seq. split; [lia|].
    unfold char_at. rewrite Hln.
    destruct (string_get_lt c ln) as [a ->]; [lia|done]. }
  simpl. unfold read_cell, char_at. rewrite Hln.
  by rewrite string_get_ge.
Qed.

Lemma read_rows_short lines nrows ncols rs :
  Forall (fun r => (r < nrows)%nat /\
            exists ln, lines !! r = Some ln /\
                       (String.length ln <= ncols)%nat) rs ->
  Exists (fun r => exists ln, lines !! r = Some ln /\
                              (String.length ln < ncols)%nat) rs ->
  forall self, grid_dims self nrows ncols ->
  snd (read_rows lines ncols rs self) = Raise IndexError.
Proof.
  intros Hall. induction Hall as [|r rs (Hr & ln & Hln & Hle) Hall IH];
    intros Hex self Hd.
  { by apply Exists_nil in Hex. }
  simpl. destruct (decide (String.length ln < ncols)%nat) as [Hlt|Hge].
  - pose proof (read_row_short lines nrows ncols r ln self Hln Hr Hlt Hd) as Hrow.
    destruct (read_row lines r (seq 0 ncols) self) as [self1 res].
    simpl in Hrow. by rewrite Hrow.
  - destruct (read_row_ok lines nrows ncols r (seq 0 ncols) Hr)
      with (self := self) as (self1 & -> & Hd1 & _); [|done|].
    { apply Forall_forall. intros c Hc%elem_of_seq. split; [lia|].
      unfold char_at. rewrite Hln.
      destruct (string_get_lt c ln) as [a ->]; [lia|done]. }
    apply IH; [|done].
    apply Exists_cons in Hex as [(ln' & Hln' & Hlt')|Hex]; [|done].
    rewrite Hln in Hln'. injection Hln' as <-. lia.
Qed.

Lemma foldl_max_ge (xs : list nat) (x : nat) :
  (x <= foldl Nat.max x xs)%nat /\
  Forall (fun y => (y <= foldl Nat.max x xs)%nat) xs.
Proof.
  revert x. induction xs as [|y ys IH]; intros x; simpl; [by split|].
  destruct (IH (x `max` y)%nat) as [Hx Hys].
  split; [lia|]. apply Forall_cons. split; [lia|done].
Qed.

(** Whenever some stripped line is shorter than the longest one,
    [read_map] raises [IndexError]. *)
Lemma read_map_short_row_IndexError (self : GridMap) (file_lines : list string)
    (ncols : nat) (ln : string) :
  py_max (map String.length (clean_lines file_lines)) = Ok ncols ->
  ln ∈ clean_lines file_lines ->
  (String.length ln < ncols)%nat ->
  snd (read_map self file_lines) = Raise IndexError.
Proof.
  intros Hmax Hln Hshort. unfold read_map. fold (clean_lines file_lines).
  rewrite Hmax.
  set (lines := clean_lines file_lines) in *.
  set (self3 := set_occupancy_grid _ _).
  pose proof (read_rows_short lines (length lines) ncols (seq 0 (length lines)))
    as Hrows.
  destruct (read_rows lines ncols (seq 0 (length lines)) self3)
    as [self4 res] eqn:Hrun.
  simpl. replace res with (snd (read_rows lines ncols (seq 0 (length lines)) self3))
    by by rewrite Hrun.
  apply Hrows.
  - apply Forall_forall. intros r Hr%elem_of_seq. split; [lia|].
    destruct (lookup_lt_is_Some_2 lines r) as [ln' Hln']; [lia|].
    exists ln'. split; [done|].
    unfold py_max in Hmax. destruct (map String.length lines) as [|x xs] eqn:Hm;
      [done|].
    injection Hmax as <-.
    assert (String.length ln' ∈ x :: xs) as Hin.
    { rewrite <- Hm. apply list_elem_of_In, in_map, list_elem_of_In.
      by eapply list_elem_of_lookup_2. }
    destruct (foldl_max_ge xs x) as [Hx Hxs].
    apply elem_of_cons in Hin as [->|Hin]; [done|].
    rewrite Forall_forall in Hxs. by apply Hxs.
  - apply Exists_exists. apply list_elem_of_lookup in Hln as [r Hr].
    exists r. split; [|by exists ln].
    apply elem_of_seq. apply lookup_lt_Some in Hr. lia.
  - exists (np_zeros (length lines) ncols). split; [done|].
    unfold np_zeros. split; [apply length_replicate|].
    apply Forall_replicate. apply length_replicate.
Qed.

(** C7, as the code has it.  [read_map] checks no marker and never
    raises [MapFormatError].  On the empty
    file it fails with [ValueError]; on a non-empty file whose stripped
    lines all have the same length it succeeds whatever markers the text
    holds: [goal] and [init_pos] end as the last [g] and the last [i] in
    row-major order, and keep their previous value (nothing, for a new
    map object) when the text has none. *)
Theorem read_map_checks_no_marker
    (self : GridMap) (file_lines : list string) (ncols : nat) :
  snd (read_map self file_lines) <> Raise MapFormatError /\
  (file_lines = [] -> snd (read_map self file_lines) = Raise ValueError) /\
  (file_lines <> [] -> rectangular file_lines ncols ->
   exists self' out,
     read_map self file_lines = (self', out, Ok tt) /\
     rows self' = Some (Z.of_nat (length file_lines)) /\
     cols self' = Some (Z.of_nat ncols) /\
     grid_dims self' (length file_lines) ncols /\
     goal self'
       = last_or (goal self) (marker_positions ch_g file_lines ncols) /\
     init_pos self'
       = last_or (init_pos self) (marker_positions ch_i file_lines ncols)).
Proof.
  split.
  { intros Hraise. apply read_map_exn in Hraise.
    destruct Hraise as [H|[H|H]]; discriminate H. }
  split; [by intros ->|].
  intros Hne Hrect. unfold read_map.
  fold (clean_lines file_lines).
  assert (length (clean_lines file_lines) = length file_lines) as Hlen
    by (unfold clean_lines; apply length_map).
  rewrite (py_max_constant ncols).
  2:{ destruct file_lines; [done|]. discriminate. }
  2:{ unfold rectangular in Hrect. by apply Forall_fmap. }
  rewrite Hlen.
  set (self3 := set_occupancy_grid _ _).
  destruct (read_rows_ok (clean_lines file_lines) (length file_lines) ncols
              (seq 0 (length file_lines))) with (self := self3)
    as (self4 & Hrun & Hd & Hr & Hc & Hg & Hi).
  { apply Forall_forall. intros r Hr%elem_of_seq. split; [lia|].
    intros c Hc. apply (rectangular_char_at file_lines ncols); [done|lia|done]. }
  { exists (np_zeros (length file_lines) ncols). split; [done|].
    unfold np_zeros. split; [apply length_replicate|].
    apply Forall_replicate. apply length_replicate. }
  rewrite Hrun. eexists _, _. split; [reflexivity|].
  split; [by rewrite Hr|]. split; [by rewrite Hc|]. split; [done|].
  unfold marker_positions. rewrite Hlen. split; [exact Hg|exact Hi].
Qed.

Lemma map_3x3_rectangular : rectangular map_3x3 3.
Proof. repeat constructor. Defined.

Lemma read_map_checks_no_marker_witness :
  exists self' out,
    read_map GridMap_blank map_3x3 = (self', out, Ok tt) /\
    rows self' = Some (Z.of_nat (length map_3x3)) /\
    cols self' = Some (Z.of_nat 3) /\
    grid_dims self' (length map_3x3) 3 /\
    goal self' = last_or (goal GridMap_blank) (marker_positions ch_g map_3x3 3) /\
    init_pos self'
      = last_or (init_pos GridMap_blank) (marker_positions ch_i map_3x3 3).
Proof.
  apply (read_map_checks_no_marker GridMap_blank map_3x3 3).
  - discriminate.
  - exact map_3x3_rectangular.
Defined.

(** C7, as stated, fails: a file without a goal and a file with two goals
    are both loaded, and the empty file raises [ValueError]. *)
Lemma read_map_accepts_bad_markers :
  (snd (read_map GridMap_blank map_no_goal) = Ok tt /\
   goal (fst (fst (read_map GridMap_blank map_no_goal))) = None) /\
  (snd (read_map GridMap_blank map_two_goals) = Ok tt /\
   goal (fst (fst (read_map GridMap_blank map_two_goals))) = Some (1, 1)) /\
  (snd (read_map GridMap_blank map_empty) = Raise ValueError /\
   snd (read_map GridMap_blank map_empty) <> Raise MapFormatError).
Proof.
  repeat split; try reflexivity. vm_compute. discriminate.
Qed.

(** C6.  On a file whose second row is shorter than its first,
    [read_map] does not pad the short row: it raises [IndexError] when it
    reaches the missing cell, although [cols] has been set to the longest
    row and the array has been allocated at that width. *)
Theorem read_map_short_row_raises :
  snd (read_map GridMap_blank ragged_map) = Raise IndexError /\
  cols (fst (fst (read_map GridMap_blank ragged_map))) = Some 3 /\
  occupancy_grid (fst (fst (read_map GridMap_blank ragged_map)))
    = Some (np_zeros 2 3).
Proof. repeat split; reflexivity. Qed.

(** * heapq: permutation, heap order and absence of exceptions *)

Lemma parent_pos_lt (c : nat) : (0 < c)%nat -> (parent_pos c < c)%nat.
Proof.
  intros Hc. unfold parent_pos.
  pose proof (Nat.Div0.div_le_upper_bound (c - 1) 2 (c - 1)). lia.
Qed.

Lemma parent_pos_left (p : nat) : parent_pos (2 * p + 1) = p.
Proof.
  unfold parent_pos. replace (2 * p + 1 - 1)%nat with (p * 2)%nat by lia.
  by rewrite Nat.div_mul.
Qed.

Lemma parent_pos_right (p : nat) : parent_pos (2 * p + 1 + 1) = p.
Proof.
  unfold parent_pos. replace (2 * p + 1 + 1 - 1)%nat with (1 + p * 2)%nat by lia.
  rewrite Nat.div_add by lia. done.
Qed.

Lemma parent_pos_children (c : nat) :
  (0 < c)%nat ->
  c = (2 * parent_pos c + 1)%nat \/ c = (2 * parent_pos c + 1 + 1)%nat.
Proof.
  intros Hc. unfold parent_pos.
  pose proof (Nat.div_mod_eq (c - 1) 2) as Hdm.
  pose proof (Nat.mod_upper_bound (c - 1) 2). lia.
Qed.

Lemma desc_le (start pos : nat) : desc start pos -> (start <= pos)%nat.
Proof.
  induction 1 as [|c Hc _ IH]; [done|].
  pose proof (parent_pos_lt c Hc). lia.
Qed.

Lemma desc_parent (start pos : nat) :
  desc start pos -> (start < pos)%nat ->
  (0 < pos)%nat /\ desc start (parent_pos pos) /\ (start <= parent_pos pos)%nat.
Proof.
  intros Hd Hlt. destruct Hd as [|c Hc Hd]; [lia|].
  split; [done|]. split; [done|]. by apply desc_le.
Qed.

Lemma desc_zero (pos : nat) : desc 0 pos.
Proof.
  induction pos as [pos IH] using lt_wf_ind.
  destruct pos as [|pos]; [constructor|].
  apply desc_child; [lia|]. apply IH. apply parent_pos_lt. lia.
Qed.

Lemma setitem_ok {A} (h : list A) (i : nat) (x : A) :
  (i < length h)%nat -> setitem h i x = Ok (<[i := x]> h).
Proof.
  intros Hi. unfold setitem.
  destruct (i <? length h)%nat eqn:E; [done|apply Nat.ltb_ge in E; lia].
Qed.

Lemma setitem_inv {A} (h h' : list A) (i : nat) (x : A) :
  setitem h i x = Ok h' -> (i < length h)%nat /\ h' = <[i := x]> h.
Proof.
  unfold setitem. destruct (i <? length h)%nat eqn:E; [|done].
  intros [= <-]. apply Nat.ltb_lt in E. done.
Qed.

Lemma place_inv {A} (h h' : list A) (pos : nat) (x : A) :
  place h pos x = (h', Ok tt) ->
  (pos < length h)%nat /\ h' = <[pos := x]> h.
Proof.
  unfold place. destruct (setitem h pos x) as [h1|] eqn:E; [|done].
  intros [= <-]. by apply setitem_inv.
Qed.

Lemma place_ok {A} (h : list A) (pos : nat) (x : A) :
  (pos < length h)%nat -> place h pos x = (<[pos := x]> h, Ok tt).
Proof. intros Hp. unfold place. by rewrite setitem_ok. Qed.

(** Exchanging two entries of a list gives a permutation of it. *)
Lemma insert_swap_Permutation {A} (h : list A) (i j : nat) (a b : A) :
  h !! i = Some a -> h !! j = Some b ->
  <[j := a]> (<[i := b]> h) ≡ₚ h.
Proof.
  intros Hi Hj. destruct (decide (i = j)) as [->|Hne].
  { rewrite list_insert_insert_eq. assert (a = b) as -> by congruence.
    by rewrite list_insert_id. }
  apply Permutation_inj. split; [by rewrite !length_insert|].
  exists (fun k => if decide (k = i) then j else if decide (k = j) then i else k).
  split.
  - intros k1 k2 Hk. repeat case_decide; congruence.
  - intros k. pose proof (lookup_lt_Some _ _ _ Hi). pose proof (lookup_lt_Some _ _ _ Hj).
    destruct (decide (k = i)) as [->|Hki].
    + rewrite list_lookup_insert_ne by done.
      rewrite list_lookup_insert_eq by done. congruence.
    + destruct (decide (k = j)) as [->|Hkj].
      * rewrite list_lookup_insert_eq by (by rewrite length_insert). congruence.
      * by rewrite !list_lookup_insert_ne.
Qed.

(** Filling the hole at [j] after moving the entry of [j] to the hole at
    [i] is an exchange in the list with the hole at [i] filled. *)
Lemma hole_move_Permutation {A} (h : list A) (i j : nat) (x b : A) :
  (i < length h)%nat -> i <> j -> h !! j = Some b ->
  <[j := x]> (<[i := b]> h) ≡ₚ <[i := x]> h.
Proof.
  intros Hi Hne Hj.
  rewrite <- (list_insert_insert_eq h i b x).
  apply insert_swap_Permutation.
  - by apply list_lookup_insert_eq.
  - by rewrite list_lookup_insert_ne.
Qed.

Section heap_theory.
Context {A : Type}.
Variable lt : A -> A -> outcome bool.
Variable key : A -> Z.

(** A comparison that returns agrees with the order of the keys. *)
Hypothesis lt_sound : forall a b r, lt a b = Ok r -> r = (key a <? key b).

(** ** The fuel of the two loops is never the reason they stop *)

Lemma siftdown_loop_fuel (fuel : nat) :
  forall (fuel' : nat) (h : list A) (start pos : nat) (x : A),
    (pos <= fuel)%nat -> (pos <= fuel')%nat ->
    siftdown_loop lt fuel h start pos x = siftdown_loop lt fuel' h start pos x.
Proof.
  induction fuel as [|fuel IH]; intros fuel' h start pos x Hf Hf'.
  { assert (pos = 0)%nat as -> by lia. destruct fuel'; [done|]. simpl.
    by destruct (start <? 0)%nat eqn:E; [apply Nat.ltb_lt in E; lia|]. }
  destruct fuel' as [|fuel'].
  { assert (pos = 0)%nat as -> by lia. simpl.
    by destruct (start <? 0)%nat eqn:E; [apply Nat.ltb_lt in E; lia|]. }
  simpl. destruct (start <? pos)%nat eqn:E; [|done].
  apply Nat.ltb_lt in E.
  destruct (h !! parent_pos pos) as [par|]; [|done].
  destruct (lt x par) as [[|]|]; [|done|done].
  destruct (setitem h pos par) as [h1|]; [|done].
  pose proof (parent_pos_lt pos ltac:(lia)). apply IH; lia.
Qed.

Lemma siftup_loop_fuel (fuel : nat) :
  forall (fuel' : nat) (h : list A) (endpos pos : nat),
    (endpos <= fuel + pos)%nat -> (endpos <= fuel' + pos)%nat ->
    siftup_loop lt fuel h endpos pos = siftup_loop lt fuel' h endpos pos.
Proof.
  induction fuel as [|fuel IH]; intros fuel' h endpos pos Hf Hf'.
  { destruct fuel'; [done|]. simpl.
    by destruct (pos + (pos + 0) + 1 <? endpos)%nat eqn:E;
      [apply Nat.ltb_lt in E; lia|]. }
  destruct fuel' as [|fuel'].
  { simpl. by destruct (pos + (pos + 0) + 1 <? endpos)%nat eqn:E;
      [apply Nat.ltb_lt in E; lia|]. }
  simpl. change (pos + (pos + 0) + 1)%nat with (2 * pos + 1)%nat.
  destruct (2 * pos + 1 <? endpos)%nat eqn:E; [|done].
  destruct (smaller_child lt h endpos (2 * pos + 1)) as [c'|] eqn:Hsc; [|done].
  assert (pos < c')%nat as Hc'.
  { unfold smaller_child in Hsc.
    destruct (2 * pos + 1 + 1 <? endpos)%nat; [|simplify_eq; lia].
    destruct (h !! (2 * pos + 1)%nat); [|done].
    destruct (h !! (2 * pos + 1 + 1)%nat); [|done].
    destruct (lt a a0) as [[|]|]; simplify_eq; simpl; lia. }
  destruct (h !! c') as [child|]; [|done].
  destruct (setitem h pos child) as [h1|]; [|done].
  apply IH; lia.
Qed.

(** ** Permutation *)

Lemma siftdown_loop_perm (fuel : nat) :
  forall (h h' : list A) (start pos : nat) (x : A),
    siftdown_loop lt fuel h start pos x = (h', Ok tt) ->
    h' ≡ₚ <[pos := x]> h.
Proof.
  induction fuel as [|fuel IH]; intros h h' start pos x Hrun; simpl in Hrun.
  { apply place_inv in Hrun as [_ ->]. done. }
  destruct (start <? pos)%nat eqn:Elt.
  2:{ apply place_inv in Hrun as [_ ->]. done. }
  apply Nat.ltb_lt in Elt.
  destruct (h !! parent_pos pos) as [par|] eqn:Hpar; [|done].
  destruct (lt x par) as [[|]|] eqn:Hcmp; [| |done].
  - destruct (setitem h pos par) as [h1|] eqn:Hset; [|done].
    apply setitem_inv in Hset as [Hpos ->].
    apply IH in Hrun. rewrite Hrun.
    apply hole_move_Permutation; [done| |done].
    pose proof (parent_pos_lt pos). lia.
  - apply place_inv in Hrun as [_ ->]. done.
Qed.

Lemma siftdown_perm (h h' : list A) (start pos : nat) :
  siftdown lt h start pos = (h', Ok tt) -> h' ≡ₚ h.
Proof.
  unfold siftdown. destruct (h !! pos) as [x|] eqn:Hx; [|done].
  intros Hrun%siftdown_loop_perm. by rewrite list_insert_id in Hrun.
Qed.

Lemma smaller_child_inv (h : list A) (endpos c c' : nat) :
  smaller_child lt h endpos c = Ok c' ->
  (c' = c \/ (c' = c + 1 /\ c + 1 < endpos))%nat /\
  (forall a b, h !! c' = Some a ->
               (h !! c = Some b \/ ((c + 1 < endpos)%nat /\ h !! (c + 1)%nat = Some b)) ->
               key a <= key b).
Proof.
  unfold smaller_child.
  destruct (c + 1 <? endpos)%nat eqn:Er.
  2:{ intros [= <-]. split; [by left|].
      apply Nat.ltb_ge in Er.
      intros a b Ha [Hb|[Hlt _]]; [|lia]. assert (a = b) as -> by congruence. lia. }
  apply Nat.ltb_lt in Er.
  destruct (h !! c) as [lc|] eqn:Hlc; [|done].
  destruct (h !! (c + 1)%nat) as [rc|] eqn:Hrc; [|done].
  destruct (lt lc rc) as [r|] eqn:Hcmp; [|done].
  apply lt_sound in Hcmp. intros [= <-].
  destruct r; simpl.
  - split; [by left|]. symmetry in Hcmp. apply Z.ltb_lt in Hcmp.
    intros a b Ha [Hb|[_ Hb]]; simplify_eq; lia.
  - split; [right; done|]. symmetry in Hcmp. apply Z.ltb_ge in Hcmp.
    intros a b Ha [Hb|[_ Hb]]; simplify_eq; lia.
Qed.

Lemma siftup_loop_perm (fuel : nat) :
  forall (h h' : list A) (pos pos' : nat),
    (pos < length h)%nat ->
    siftup_loop lt fuel h (length h) pos = (h', Ok pos') ->
    length h' = length h /\ (pos <= pos' < length h)%nat /\
    forall x, <[pos' := x]> h' ≡ₚ <[pos := x]> h.
Proof.
  induction fuel as [|fuel IH]; intros h h' pos pos' Hpos Hrun; simpl in Hrun.
  { simplify_eq. split; [done|]. split; [lia|reflexivity]. }
  change (pos + (pos + 0) + 1)%nat with (2 * pos + 1)%nat in Hrun.
  destruct (2 * pos + 1 <? length h)%nat eqn:Ec.
  2:{ simplify_eq. split; [done|]. split; [lia|reflexivity]. }
  apply Nat.ltb_lt in Ec.
  destruct (smaller_child lt h (length h) (2 * pos + 1)) as [c'|] eqn:Hsc;
    [|done].
  apply smaller_child_inv in Hsc as [Hc' _].
  destruct (h !! c') as [child|] eqn:Hchild; [|done].
  destruct (setitem h pos child) as [h1|] eqn:Hset; [|done].
  apply setitem_inv in Hset as [_ ->].
  replace (length h) with (length (<[pos := child]> h)) in Hrun
    by apply length_insert.
  apply IH in Hrun as (Hlen & Hrange & Hperm).
  2:{ rewrite length_insert. lia. }
  rewrite length_insert in Hlen, Hrange.
  split; [done|]. split; [lia|].
  intros x. rewrite Hperm. apply hole_move_Permutation; [done|lia|done].
Qed.

Lemma siftup_perm (h h' : list A) (pos : nat) :
  siftup lt h pos = (h', Ok tt) -> h' ≡ₚ h.
Proof.
  unfold siftup. destruct (h !! pos) as [x|] eqn:Hx; [|done].
  pose proof (lookup_lt_Some _ _ _ Hx) as Hpos.
  destruct (siftup_loop lt (length h) h (length h) pos) as [h1 [pos1|]] eqn:Hloop;
    [|done].
  apply siftup_loop_perm in Hloop as (Hlen & Hrange & Hperm); [|done].
  rewrite place_ok by lia.
  intros Hrun%siftdown_perm. rewrite Hrun, Hperm. by rewrite list_insert_id.
Qed.

Lemma heapify_loop_perm (idxs : list nat) :
  forall (h h' : list A),
    heapify_loop lt h idxs = (h', Ok tt) -> h' ≡ₚ h.
Proof.
  induction idxs as [|i idxs IH]; intros h h' Hrun; simpl in Hrun.
  { by injection Hrun as <-. }
  destruct (siftup lt h i) as [h1 [[]|]] eqn:Hsift; [|done].
  apply siftup_perm in Hsift. apply IH in Hrun. by rewrite Hrun.
Qed.

Lemma heapify_perm (h h' : list A) :
  heapify lt h = (h', Ok tt) -> h' ≡ₚ h.
Proof. apply heapify_loop_perm. Qed.

Lemma heappush_perm (h h' : list A) (item : A) :
  heappush lt h item = (h', Ok tt) -> h' ≡ₚ item :: h.
Proof.
  unfold heappush. intros Hrun%siftdown_perm.
  rewrite Hrun. by rewrite Permutation_app_comm.
Qed.

Lemma last_removelast (h : list A) (x : A) :
  last h = Some x -> h = removelast h ++ [x].
Proof.
  destruct h as [|y h] using rev_ind; [done|].
  rewrite last_snoc, removelast_last. by intros [= ->].
Qed.

Lemma heappop_perm (h h' : list A) (x : A) :
  heappop lt h = (h', Ok x) -> h !! 0%nat = Some x /\ h ≡ₚ x :: h'.
Proof.
  unfold heappop. destruct (last h) as [lastelt|] eqn:Hlast; [|done].
  apply last_removelast in Hlast.
  destruct (removelast h) as [|ret h1] eqn:Hrm.
  { intros [= <- <-]. by rewrite Hlast. }
  destruct (siftup lt (<[0%nat := lastelt]> (ret :: h1)) 0) as [h2 [[]|]] eqn:Hsift;
    [|done].
  intros [= <- <-]. apply siftup_perm in Hsift.
  rewrite Hlast. split; [done|]. rewrite Hsift. simpl.
  constructor. apply (Permutation_app_comm h1 [lastelt]).
Qed.

(** ** Heap order *)

Lemma heap_hole_insert (h : list A) (start pos : nat) (x : A) :
  heap_hole key h start pos -> heap_hole key (<[pos := x]> h) start pos.
Proof.
  intros [H1 H2]. split.
  - intros c Hc Hs Hp Hcp a b Ha Hb.
    rewrite list_lookup_insert_ne in Ha by done.
    rewrite list_lookup_insert_ne in Hb by done.
    by apply (H1 c).
  - intros c Hc Hp Hpos Hs a b Ha Hb.
    pose proof (parent_pos_lt pos Hpos). pose proof (parent_pos_lt c Hc).
    rewrite list_lookup_insert_ne in Ha by lia.
    rewrite list_lookup_insert_ne in Hb by lia.
    by apply (H2 c).
Qed.

(** Storing [x] in the hole gives heap order when [x] fits between the
    parent and the children of the hole. *)
Lemma fill_hole (h : list A) (start pos : nat) (x : A) :
  (pos < length h)%nat ->
  heap_hole key h start pos ->
  below_ok key h pos x ->
  ((start < pos)%nat ->
   forall a, h !! parent_pos pos = Some a -> key a <= key x) ->
  heap_from key (<[pos := x]> h) start.
Proof.
  intros Hpos [H1 H2] Hbelow Habove c Hc Hs a b Ha Hb.
  pose proof (parent_pos_lt c Hc) as Hpc.
  destruct (decide (c = pos)) as [->|Hcp].
  - rewrite list_lookup_insert_eq in Hb by done.
    rewrite list_lookup_insert_ne in Ha by lia.
    injection Hb as <-. apply Habove; [lia|done].
  - rewrite list_lookup_insert_ne in Hb by done.
    destruct (decide (parent_pos c = pos)) as [Hp|Hp].
    + rewrite Hp in Ha. rewrite list_lookup_insert_eq in Ha by done.
      injection Ha as <-. by apply (Hbelow c).
    + rewrite list_lookup_insert_ne in Ha by done. by apply (H1 c).
Qed.

Lemma siftdown_loop_heap (fuel : nat) :
  forall (h h' : list A) (start pos : nat) (x : A),
    (pos <= fuel)%nat -> (pos < length h)%nat -> desc start pos ->
    heap_hole key h start pos -> below_ok key h pos x ->
    siftdown_loop lt fuel h start pos x = (h', Ok tt) ->
    heap_from key h' start.
Proof.
  induction fuel as [|fuel IH];
    intros h h' start pos x Hfuel Hpos Hdesc Hhole Hbelow Hrun; simpl in Hrun.
  { apply place_inv in Hrun as [_ ->]. apply fill_hole; try done. lia. }
  destruct (start <? pos)%nat eqn:Elt.
  2:{ apply Nat.ltb_ge in Elt. apply place_inv in Hrun as [_ ->].
      apply fill_hole; try done. lia. }
  apply Nat.ltb_lt in Elt.
  destruct (desc_parent start pos Hdesc Elt) as (Hpos0 & Hdesc' & Hstart).
  pose proof (parent_pos_lt pos Hpos0) as Hpp.
  destruct (h !! parent_pos pos) as [par|] eqn:Hpar; [|done].
  destruct (lt x par) as [r|] eqn:Hcmp; [|done].
  apply lt_sound in Hcmp. symmetry in Hcmp.
  destruct r.
  - apply Z.ltb_lt in Hcmp.
    destruct (setitem h pos par) as [h1|] eqn:Hset; [|done].
    apply setitem_inv in Hset as [_ ->].
    destruct Hhole as [H1 H2].
    apply IH in Hrun; [done|lia|rewrite length_insert; lia|done| |].
    + split.
      * intros c Hc Hs Hp Hcp a b Ha Hb.
        assert (c <> pos) as Hcpos by (intros ->; done).
        rewrite list_lookup_insert_ne in Hb by done.
        destruct (decide (parent_pos c = pos)) as [Hpc|Hpc].
        -- rewrite Hpc in Ha. rewrite list_lookup_insert_eq in Ha by done.
           injection Ha as <-. by apply (H2 c).
        -- rewrite list_lookup_insert_ne in Ha by done. by apply (H1 c).
      * intros c Hc Hp Hpp0 Hs a b Ha Hb.
        pose proof (parent_pos_lt _ Hpp0).
        rewrite list_lookup_insert_ne in Ha by lia.
        assert (key a <= key par) as Hapar.
        { apply (H1 (parent_pos pos)); try done; lia. }
        destruct (decide (c = pos)) as [->|Hcpos].
        -- rewrite list_lookup_insert_eq in Hb by done. by injection Hb as <-.
        -- rewrite list_lookup_insert_ne in Hb by done.
           assert (key par <= key b); [|lia].
           apply (H1 c); [done|rewrite Hp; lia|rewrite Hp; lia|done|by rewrite Hp|done].
    + intros c b Hc Hp Hb.
      destruct (decide (c = pos)) as [->|Hcpos].
      * rewrite list_lookup_insert_eq in Hb by done. injection Hb as <-. lia.
      * rewrite list_lookup_insert_ne in Hb by done.
        assert (key par <= key b); [|lia].
        apply (H1 c); [done|rewrite Hp; lia|rewrite Hp; lia|done|by rewrite Hp|done].
  - apply Z.ltb_ge in Hcmp. apply place_inv in Hrun as [_ ->].
    apply fill_hole; try done.
    intros _ a Ha. assert (a = par) as -> by congruence. done.
Qed.

Lemma siftup_loop_heap (fuel : nat) (start : nat) :
  forall (h h' : list A) (pos pos' : nat),
    (length h <= fuel + pos)%nat -> (pos < length h)%nat ->
    desc start pos -> heap_hole key h start pos ->
    siftup_loop lt fuel h (length h) pos = (h', Ok pos') ->
    desc start pos' /\ heap_hole key h' start pos' /\
    (length h <= 2 * pos' + 1)%nat.
Proof.
  induction fuel as [|fuel IH];
    intros h h' pos pos' Hfuel Hpos Hdesc Hhole Hrun; simpl in Hrun.
  { simplify_eq. split; [done|]. split; [done|]. lia. }
  change (pos + (pos + 0) + 1)%nat with (2 * pos + 1)%nat in Hrun.
  destruct (2 * pos + 1 <? length h)%nat eqn:Ec.
  2:{ apply Nat.ltb_ge in Ec. simplify_eq. done. }
  apply Nat.ltb_lt in Ec.
  destruct (smaller_child lt h (length h) (2 * pos + 1)) as [c'|] eqn:Hsc;
    [|done].
  apply smaller_child_inv in Hsc as [Hc' Hmin].
  destruct (h !! c') as [child|] eqn:Hchild; [|done].
  destruct (setitem h pos child) as [h1|] eqn:Hset; [|done].
  apply setitem_inv in Hset as [_ ->].
  assert (parent_pos c' = pos) as Hpc'.
  { destruct Hc' as [->|[-> _]]; [apply parent_pos_left|apply parent_pos_right]. }
  assert (0 < c')%nat as Hc'0 by lia.
  assert (pos < c')%nat as Hposc' by lia.
  replace (length h) with (length (<[pos := child]> h)) in Hrun
    by apply length_insert.
  destruct Hhole as [H1 H2].
  apply IH in Hrun.
  - rewrite length_insert in Hrun. done.
  - rewrite length_insert. lia.
  - rewrite length_insert. lia.
  - apply desc_child; [done|]. by rewrite Hpc'.
  - split.
    + intros c Hc Hs Hp Hcc' a b Ha Hb.
      pose proof (parent_pos_lt c Hc) as Hpc.
      destruct (decide (c = pos)) as [->|Hcpos].
      * rewrite list_lookup_insert_eq in Hb by done. injection Hb as <-.
        rewrite list_lookup_insert_ne in Ha by lia.
        by apply (H2 c').
      * rewrite list_lookup_insert_ne in Hb by done.
        destruct (decide (parent_pos c = pos)) as [Hpcp|Hpcp].
        -- rewrite Hpcp in Ha. rewrite list_lookup_insert_eq in Ha by done.
           injection Ha as <-. apply (Hmin child b); [done|].
           pose proof (lookup_lt_Some _ _ _ Hb).
           destruct (parent_pos_children c Hc) as [Hcl|Hcr]; rewrite Hpcp in *.
           ++ left. by rewrite <- Hcl.
           ++ right. rewrite <- Hcr. split; [lia|done].
        -- rewrite list_lookup_insert_ne in Ha by done. by apply (H1 c).
    + intros c Hc Hp _ Hs a b Ha Hb.
      pose proof (parent_pos_lt c Hc) as Hpc.
      rewrite Hpc' in Ha. rewrite list_lookup_insert_eq in Ha by done.
      injection Ha as <-.
      rewrite list_lookup_insert_ne in Hb by lia.
      apply desc_le in Hdesc.
      apply (H1 c); [done|rewrite Hp; lia|rewrite Hp; lia|lia|by rewrite Hp|done].
Qed.

Lemma siftup_heap (h h' : list A) (pos : nat) :
  heap_from key h (S pos) ->
  siftup lt h pos = (h', Ok tt) ->
  heap_from key h' pos.
Proof.
  intros Hheap. unfold siftup.
  destruct (h !! pos) as [x|] eqn:Hx; [|done].
  pose proof (lookup_lt_Some _ _ _ Hx) as Hpos.
  destruct (siftup_loop lt (length h) h (length h) pos) as [h1 [pos1|]] eqn:Hloop;
    [|done].
  pose proof (siftup_loop_perm _ _ _ _ _ Hpos Hloop)
    as (Hlen & Hrange & _).
  apply (siftup_loop_heap _ pos) in Hloop as (Hdesc & Hhole & Hleaf);
    [|lia|done|constructor|].
  2:{ split.
      - intros c Hc Hs Hp _. apply Hheap; [done|lia].
      - intros c Hc Hp Hpos0 Hs. pose proof (parent_pos_lt pos Hpos0). lia. }
  rewrite place_ok by lia.
  unfold siftdown. rewrite list_lookup_insert_eq by lia.
  apply siftdown_loop_heap; [done|rewrite length_insert; lia|done| |].
  - by apply heap_hole_insert.
  - intros c b Hc Hp Hb. apply lookup_lt_Some in Hb.
    rewrite length_insert in Hb.
    destruct (parent_pos_children c Hc); lia.
Qed.

Lemma heap_from_half (h : list A) : heap_from key h (length h / 2).
Proof.
  intros c Hc Hs a b _ Hb. apply lookup_lt_Some in Hb.
  pose proof (Nat.div_mod_eq (length h) 2).
  pose proof (Nat.mod_upper_bound (length h) 2).
  destruct (parent_pos_children c Hc); lia.
Qed.

Lemma heapify_loop_heap (k : nat) :
  forall (h h' : list A),
    heap_from key h k ->
    heapify_loop lt h (rev (seq 0 k)) = (h', Ok tt) ->
    heap_from key h' 0.
Proof.
  induction k as [|k IH]; intros h h' Hheap Hrun.
  { simpl in Hrun. by simplify_eq. }
  rewrite seq_S, rev_app_distr in Hrun. simpl in Hrun.
  destruct (siftup lt h k) as [h1 [[]|]] eqn:Hsift; [|done].
  apply siftup_heap in Hsift; [|done]. by apply (IH h1).
Qed.

Lemma heapify_heap (h h' : list A) :
  heapify lt h = (h', Ok tt) -> is_heap key h'.
Proof. apply heapify_loop_heap, heap_from_half. Qed.

Lemma heappush_heap (h h' : list A) (item : A) :
  is_heap key h -> heappush lt h item = (h', Ok tt) -> is_heap key h'.
Proof.
  intros Hheap. unfold heappush, siftdown.
  rewrite length_app. simpl.
  replace (length h + 1 - 1)%nat with (length h) by lia.
  rewrite lookup_app_r by lia. rewrite Nat.sub_diag. simpl.
  apply siftdown_loop_heap; [done|rewrite length_app; simpl; lia|apply desc_zero| |].
  - split.
    + intros c Hc Hs Hp Hcp a b Ha Hb.
      pose proof (parent_pos_lt c Hc).
      pose proof (lookup_lt_Some _ _ _ Hb) as Hcl.
      rewrite length_app in Hcl. simpl in Hcl.
      rewrite lookup_app_l in Ha by lia. rewrite lookup_app_l in Hb by lia.
      by apply (Hheap c).
    + intros c Hc Hp _ _ a b _ Hb.
      apply lookup_lt_Some in Hb. rewrite length_app in Hb. simpl in Hb.
      destruct (parent_pos_children c Hc); lia.
  - intros c b Hc Hp Hb.
    apply lookup_lt_Some in Hb. rewrite length_app in Hb. simpl in Hb.
    destruct (parent_pos_children c Hc); lia.
Qed.

Lemma heappop_heap (h h' : list A) (x : A) :
  is_heap key h -> heappop lt h = (h', Ok x) -> is_heap key h'.
Proof.
  intros Hheap. unfold heappop.
  destruct (last h) as [lastelt|] eqn:Hlast; [|done].
  apply last_removelast in Hlast.
  destruct (removelast h) as [|ret h1] eqn:Hrm.
  { intros [= <- <-]. intros c Hc _ a b _ Hb. done. }
  destruct (siftup lt (<[0%nat := lastelt]> (ret :: h1)) 0) as [h2 [[]|]] eqn:Hsift;
    [|done].
  intros [= <- <-]. apply siftup_heap in Hsift; [done|].
  intros c Hc Hs a b Ha Hb.
  pose proof (parent_pos_lt c Hc).
  pose proof (lookup_lt_Some _ _ _ Hb) as Hcl.
  rewrite length_insert in Hcl.
  rewrite list_lookup_insert_ne in Ha by lia.
  rewrite list_lookup_insert_ne in Hb by lia.
  apply (Hheap c); [done|lia| |]; rewrite Hlast.
  - rewrite lookup_app_l by lia. done.
  - rewrite lookup_app_l by lia. done.
Qed.

(** The root of a heap-ordered list is a minimum of it. *)
Lemma is_heap_root_min (h : list A) (x : A) :
  is_heap key h -> h !! 0%nat = Some x ->
  forall i y, h !! i = Some y -> key x <= key y.
Proof.
  intros Hheap Hx i. induction i as [i IH] using lt_wf_ind. intros y Hy.
  destruct (decide (i = 0)%nat) as [->|Hi].
  { assert (x = y) as -> by congruence. lia. }
  pose proof (parent_pos_lt i ltac:(lia)) as Hp.
  destruct (lookup_lt_is_Some_2 h (parent_pos i)) as [z Hz].
  { apply lookup_lt_Some in Hy. lia. }
  pose proof (IH _ Hp z Hz).
  assert (key z <= key y); [|lia].
  apply (Hheap i); [lia|lia|done|done].
Qed.

(** ** No exception when the keys are pairwise distinct *)

(** Entries with different keys can be compared. *)
Hypothesis lt_total : forall a b, key a <> key b -> exists r, lt a b = Ok r.

Lemma distinct_keys (h : list A) (i j : nat) (a b : A) :
  NoDup (key <$> h) -> h !! i = Some a -> h !! j = Some b -> i <> j ->
  key a <> key b.
Proof.
  intros Hnd Ha Hb Hij Heq. apply Hij.
  apply (NoDup_lookup (key <$> h) i j (key a)); [done| |].
  - by rewrite list_lookup_fmap, Ha.
  - by rewrite list_lookup_fmap, Hb, Heq.
Qed.

Lemma siftdown_loop_ok (fuel : nat) :
  forall (h : list A) (start pos : nat) (x : A),
    (pos < length h)%nat -> NoDup (key <$> <[pos := x]> h) ->
    exists h', siftdown_loop lt fuel h start pos x = (h', Ok tt).
Proof.
  induction fuel as [|fuel IH]; intros h start pos x Hpos Hnd; simpl.
  { rewrite place_ok by done. by eexists. }
  destruct (start <? pos)%nat eqn:Elt.
  2:{ rewrite place_ok by done. by eexists. }
  apply Nat.ltb_lt in Elt.
  pose proof (parent_pos_lt pos ltac:(lia)) as Hpp.
  destruct (lookup_lt_is_Some_2 h (parent_pos pos)) as [par Hpar]; [lia|].
  rewrite Hpar.
  destruct (lt_total x par) as [r Hcmp].
  { apply (distinct_keys (<[pos := x]> h) pos (parent_pos pos)); [done| | |lia].
    - by apply list_lookup_insert_eq.
    - rewrite list_lookup_insert_ne by lia. done. }
  rewrite Hcmp. destruct r.
  - rewrite setitem_ok by done. apply IH; [rewrite length_insert; lia|].
    rewrite hole_move_Permutation; [done|done|lia|done].
  - rewrite place_ok by done. by eexists.
Qed.

Lemma siftdown_ok (h : list A) (start pos : nat) :
  (pos < length h)%nat -> NoDup (key <$> h) ->
  exists h', siftdown lt h start pos = (h', Ok tt).
Proof.
  intros Hpos Hnd. unfold siftdown.
  destruct (lookup_lt_is_Some_2 h pos Hpos) as [x Hx]. rewrite Hx.
  apply siftdown_loop_ok; [done|]. by rewrite list_insert_id.
Qed.

Lemma smaller_child_ok (h : list A) (pos c : nat) (x : A) :
  NoDup (key <$> <[pos := x]> h) -> (pos < c)%nat -> (c < length h)%nat ->
  exists c', smaller_child lt h (length h) c = Ok c' /\
             (c' = c \/ c' = c + 1)%nat /\ (c' < length h)%nat.
Proof.
  intros Hnd Hpc Hc. unfold smaller_child.
  destruct (c + 1 <? length h)%nat eqn:Er.
  2:{ exists c. split; [done|]. split; [by left|done]. }
  apply Nat.ltb_lt in Er.
  destruct (lookup_lt_is_Some_2 h c Hc) as [lc Hlc].
  destruct (lookup_lt_is_Some_2 h (c + 1) Er) as [rc Hrc].
  rewrite Hlc, Hrc.
  destruct (lt_total lc rc) as [r Hcmp].
  { apply (distinct_keys (<[pos := x]> h) c (c + 1)); [done| | |lia].
    - rewrite list_lookup_insert_ne by lia. done.
    - rewrite list_lookup_insert_ne by lia. done. }
  rewrite Hcmp. eexists. split; [reflexivity|].
  destruct r; simpl; (split; [auto|lia]).
Qed.

Lemma siftup_loop_ok (fuel : nat) :
  forall (h : list A) (pos : nat) (x : A),
    (pos < length h)%nat -> NoDup (key <$> <[pos := x]> h) ->
    exists h' pos', siftup_loop lt fuel h (length h) pos = (h', Ok pos').
Proof.
  induction fuel as [|fuel IH]; intros h pos x Hpos Hnd; simpl.
  { by eexists _, _. }
  change (pos + (pos + 0) + 1)%nat with (2 * pos + 1)%nat.
  destruct (2 * pos + 1 <? length h)%nat eqn:Ec.
  2:{ by eexists _, _. }
  apply Nat.ltb_lt in Ec.
  destruct (smaller_child_ok h pos (2 * pos + 1) x Hnd) as (c' & -> & Hc' & Hlt);
    [lia|done|].
  destruct (lookup_lt_is_Some_2 h c' Hlt) as [child Hchild]. rewrite Hchild.
  rewrite setitem_ok by done.
  replace (length h) with (length (<[pos := child]> h)) by apply length_insert.
  apply (IH _ _ x); [rewrite length_insert; lia|].
  rewrite hole_move_Permutation; [done|done|lia|done].
Qed.

Lemma siftup_ok (h : list A) (pos : nat) :
  (pos < length h)%nat -> NoDup (key <$> h) ->
  exists h', siftup lt h pos = (h', Ok tt).
Proof.
  intros Hpos Hnd. unfold siftup.
  destruct (lookup_lt_is_Some_2 h pos Hpos) as [x Hx]. rewrite Hx.
  destruct (siftup_loop_ok (length h) h pos x Hpos) as (h1 & pos1 & Hloop).
  { by rewrite list_insert_id. }
  rewrite Hloop.
  apply siftup_loop_perm in Hloop as (Hlen & Hrange & Hperm); [|done].
  rewrite place_ok by lia.
  apply siftdown_ok; [rewrite length_insert; lia|].
  rewrite Hperm. by rewrite list_insert_id.
Qed.

Lemma heapify_loop_ok (idxs : list nat) :
  forall (h : list A),
    Forall (fun i => (i < length h)%nat) idxs -> NoDup (key <$> h) ->
    exists h', heapify_loop lt h idxs = (h', Ok tt).
Proof.
  induction idxs as [|i idxs IH]; intros h Hidx Hnd; simpl.
  { by eexists. }
  apply Forall_cons in Hidx as [Hi Hidx].
  destruct (siftup_ok h i Hi Hnd) as [h1 Hsift]. rewrite Hsift.
  apply siftup_perm in Hsift.
  pose proof (Permutation_length Hsift) as Hlen.
  apply IH.
  - eapply Forall_impl; [exact Hidx|]. simpl. intros j Hj. lia.
  - by rewrite Hsift.
Qed.

Lemma heapify_ok (h : list A) :
  NoDup (key <$> h) -> exists h', heapify lt h = (h', Ok tt).
Proof.
  intros Hnd. apply heapify_loop_ok; [|done].
  apply Forall_forall. intros i Hi.
  apply list_elem_of_In, in_rev, in_seq in Hi.
  pose proof (Nat.Div0.div_le_upper_bound (length h) 2 (length h)). 
  pose proof (Nat.div_mod_eq (length h) 2). lia.
Qed.

Lemma heappush_ok (h : list A) (item : A) :
  NoDup (key <$> item :: h) -> exists h', heappush lt h item = (h', Ok tt).
Proof.
  intros Hnd. unfold heappush. apply siftdown_ok.
  - rewrite length_app. simpl. lia.
  - by rewrite <- Permutation_cons_append.
Qed.

Lemma heappop_ok (h : list A) :
  h <> [] -> NoDup (key <$> h) -> exists h' x, heappop lt h = (h', Ok x).
Proof.
  intros Hne Hnd. unfold heappop.
  destruct (last h) as [lastelt|] eqn:Hlast.
  2:{ apply last_None in Hlast. done. }
  apply last_removelast in Hlast.
  destruct (removelast h) as [|ret h1] eqn:Hrm; [by eexists _, _|].
  destruct (siftup_ok (<[0%nat := lastelt]> (ret :: h1)) 0) as [h2 Hsift].
  - simpl. lia.
  - simpl. rewrite Hlast in Hnd. simpl in Hnd.
    apply NoDup_cons in Hnd as [_ Hnd].
    rewrite fmap_app in Hnd. simpl in Hnd.
    by rewrite <- Permutation_cons_append in Hnd.
  - rewrite Hsift. by eexists _, _.
Qed.

End heap_theory.

(** * The frontier *)

(** Induction along the parent chain of a node. *)
Lemma SearchNode_chain_ind (P : SearchNode -> Prop) :
  (forall i st acts pa c, P (mkSearchNode i st acts None pa c)) ->
  (forall i st acts p pa c, P p -> P (mkSearchNode i st acts (Some p) pa c)) ->
  forall x, P x.
Proof.
  intros Hroot Hstep. fix IH 1.
  intros [i st acts [p|] pa c]; [apply Hstep, IH|apply Hroot].
Qed.

Lemma SearchNode_eqb_refl (x : SearchNode) : SearchNode_eqb x x = true.
Proof.
  induction x as [i st acts pa c|i st acts p pa c IH] using SearchNode_chain_ind;
    simpl; rewrite Pos.eqb_refl, Z.eqb_refl, !bool_decide_eq_true_2 by done;
    simpl; rewrite ?IH; done.
Qed.

Lemma SearchNode_eqb_eq (x y : SearchNode) :
  SearchNode_eqb x y = true <-> x = y.
Proof.
  split; [|intros ->; apply SearchNode_eqb_refl].
  revert y.
  induction x as [i st acts pa c|i st acts p pa c IH] using SearchNode_chain_ind;
    intros [i' st' acts' [p'|] pa' c']; simpl; intros H;
    repeat (apply andb_prop in H as [H ?]);
    try discriminate;
    repeat match goal with
           | E : bool_decide _ = true |- _ => apply bool_decide_eq_true_1 in E
           | E : Pos.eqb _ _ = true |- _ => apply Pos.eqb_eq in E
           | E : Z.eqb _ _ = true |- _ => apply Z.eqb_eq in E
           end; subst; try done.
  f_equal. f_equal. by apply IH.
Qed.

Lemma entry_eqb_eq (a b : entry) : entry_eqb a b = true <-> a = b.
Proof.
  unfold entry_eqb, same_object. destruct a as [c x], b as [c' y]. simpl.
  rewrite andb_true_iff, Z.eqb_eq, SearchNode_eqb_eq. split.
  - by intros [-> ->].
  - by intros [= -> ->].
Qed.

Lemma entry_lt_sound (a b : entry) (r : bool) :
  entry_lt a b = Ok r -> r = (fst a <? fst b).
Proof.
  unfold entry_lt. destruct (fst a =? fst b) eqn:E.
  - apply Z.eqb_eq in E. rewrite E, Z.ltb_irrefl.
    destruct (same_object _ _); [by intros [= <-]|done].
  - by intros [= <-].
Qed.

Lemma entry_lt_total (a b : entry) :
  fst a <> fst b -> exists r, entry_lt a b = Ok r.
Proof.
  intros Hne. unfold entry_lt.
  destruct (fst a =? fst b) eqn:E; [apply Z.eqb_eq in E; done|by eexists].
Qed.

(** Two distinct entries of equal cost cannot be compared. *)
Lemma entry_lt_tie (a b : entry) :
  fst a = fst b -> snd a <> snd b -> entry_lt a b = Raise TypeError.
Proof.
  intros Hc Hn. unfold entry_lt. rewrite Hc, Z.eqb_refl.
  destruct (same_object (snd a) (snd b)) eqn:E; [|done].
  apply SearchNode_eqb_eq in E. done.
Qed.

(** ** The scan of [replace] *)

Lemma filter_all {A} (P : A -> Prop) `{forall x, Decision (P x)} (xs : list A) :
  Forall P xs -> filter P xs = xs.
Proof.
  induction 1 as [|x xs Hx _ IH]; [done|].
  rewrite filter_cons_True by done. by rewrite IH.
Qed.

Lemma filter_none {A} (P : A -> Prop) `{forall x, Decision (P x)} (xs : list A) :
  Forall (fun x => ~ P x) xs -> filter P xs = [].
Proof.
  induction 1 as [|x xs Hx _ IH]; [done|].
  rewrite filter_cons_False by done. by rewrite IH.
Qed.

Lemma states_of_not_in (es : list entry) (st : State) :
  st ∉ states_of es -> Forall (fun e => entry_state e <> st) es.
Proof.
  intros Hnot. apply Forall_forall. intros e He Heq. apply Hnot.
  unfold states_of. apply list_elem_of_fmap. by exists e.
Qed.

(** When some entry has the state [st], the scan finds the first such
    entry and [list.remove] drops exactly that one. *)
Lemma scan_present (es : list entry) (st : State) :
  NoDup (states_of es) -> st ∈ states_of es ->
  exists i y,
    list_find (fun e => entry_state e = st) es = Some (i, y) /\
    entry_state y = st /\
    list_remove y es = Ok (filter (fun e => entry_state e <> st) es).
Proof.
  induction es as [|e es IH]; intros Hnd Hin; simpl in *.
  { by apply elem_of_nil in Hin. }
  apply NoDup_cons in Hnd as [Hfresh Hnd].
  destruct (decide (entry_state e = st)) as [Heq|Hne].
  - exists 0%nat, e. split; [done|]. split; [done|].
    assert (entry_eqb e e = true) as -> by by apply entry_eqb_eq.
    rewrite filter_cons_False by (intros Hc; done).
    rewrite filter_all; [done|].
    apply states_of_not_in. by rewrite <- Heq.
  - apply elem_of_cons in Hin as [Hin|Hin]; [done|].
    destruct (IH Hnd Hin) as (i & y & Hfind & Hy & Hrem).
    exists (S i), y. rewrite Hfind. simpl. split; [done|]. split; [done|].
    destruct (entry_eqb e y) eqn:E.
    { apply entry_eqb_eq in E. subst. done. }
    rewrite Hrem. by rewrite filter_cons_True.
Qed.

Lemma scan_absent (es : list entry) (st : State) :
  st ∉ states_of es ->
  list_find (fun e => entry_state e = st) es = None /\
  filter (fun e => entry_state e <> st) es = es.
Proof.
  intros Hnot. split.
  - apply list_find_None. apply Forall_forall. intros e He Heq.
    apply Hnot. unfold states_of. apply list_elem_of_fmap. by exists e.
  - apply filter_all. by apply states_of_not_in.
Qed.

Lemma states_of_filter_others (es : list entry) (st : State) :
  st ∉ states_of (filter (fun e => entry_state e <> st) es).
Proof.
  unfold states_of. intros (e & Heq & He%list_elem_of_filter)%list_elem_of_fmap.
  destruct He as [Hne _]. done.
Qed.

Lemma states_of_filter_sub (es : list entry) (st st' : State) :
  st' ∈ states_of (filter (fun e => entry_state e <> st) es) <->
  st' ∈ states_of es /\ st' <> st.
Proof.
  unfold states_of. rewrite !list_elem_of_fmap. split.
  - intros (e & -> & [Hne He]%list_elem_of_filter). split; [by exists e|done].
  - intros [(e & -> & He) Hne]. exists e. split; [done|].
    by apply list_elem_of_filter.
Qed.

Lemma NoDup_states_filter (P : entry -> Prop) `{forall e, Decision (P e)}
    (es : list entry) :
  NoDup (states_of es) -> NoDup (states_of (filter P es)).
Proof.
  unfold states_of. induction es as [|e es IH]; [done|].
  simpl. intros [Hfresh Hnd]%NoDup_cons.
  destruct (decide (P e)).
  - rewrite filter_cons_True by done. simpl. apply NoDup_cons. split; [|auto].
    intros (e' & Heq & [_ He']%list_elem_of_filter)%list_elem_of_fmap.
    apply Hfresh. apply list_elem_of_fmap. by exists e'.
  - rewrite filter_cons_False by done. auto.
Qed.

(** What the scan leaves behind: the entries of the other states, and
    the set without the state of [x]. *)
Lemma replace_scan_inv (x : SearchNode) (q : PriorityQ) :
  one_entry_per_state q ->
  replace_scan x q
  = ({| l := others x q; s := s q ∖ {[state x]} |}, Ok tt) /\
  one_entry_per_state {| l := others x q; s := s q ∖ {[state x]} |}.
Proof.
  intros [Hnd Hset]. split.
  - unfold replace_scan, others.
    destruct (decide (state x ∈ states_of (l q))) as [Hin|Hnot].
    + destruct (scan_present (l q) (state x) Hnd Hin)
        as (i & y & -> & Hy & ->).
      unfold set_remove. rewrite Hy.
      rewrite bool_decide_eq_true_2; [done|].
      rewrite Hset. by apply elem_of_list_to_set.
    + destruct (scan_absent (l q) (state x) Hnot) as [-> ->].
      destruct q as [lq sq]. simpl in *. f_equal. f_equal.
      rewrite Hset. apply set_eq. intros st.
      rewrite elem_of_difference, elem_of_list_to_set, elem_of_singleton.
      split; [|by intros [? _]]. intros Hst. split; [done|]. by intros ->.
  - split; simpl.
    + by apply NoDup_states_filter.
    + rewrite Hset. apply set_eq. intros st.
      rewrite elem_of_difference, !elem_of_list_to_set, elem_of_singleton.
      unfold others. by rewrite states_of_filter_sub.
Qed.

Lemma one_entry_per_state_perm (es es' : list entry) (st : gset State) :
  es' ≡ₚ es ->
  one_entry_per_state {| l := es; s := st |} ->
  one_entry_per_state {| l := es'; s := st |}.
Proof.
  intros Hperm [Hnd Hset]. unfold one_entry_per_state, states_of in *.
  simpl in *. split.
  - by rewrite Hperm.
  - rewrite Hset. apply set_eq. intros x.
    rewrite !elem_of_list_to_set. by rewrite Hperm.
Qed.

Lemma one_entry_per_state_add (es es' : list entry) (st : gset State)
    (x : SearchNode) (c : Z) :
  es' ≡ₚ (c, x) :: es ->
  state x ∉ st ->
  one_entry_per_state {| l := es; s := st |} ->
  one_entry_per_state {| l := es'; s := {[state x]} ∪ st |}.
Proof.
  intros Hperm Hfresh [Hnd Hset]. unfold one_entry_per_state, states_of in *.
  simpl in *. split.
  - rewrite Hperm. simpl. apply NoDup_cons. split; [|done].
    intros Hin. apply Hfresh. rewrite Hset. by apply elem_of_list_to_set.
  - rewrite Hset. apply set_eq. intros y.
    rewrite elem_of_union, !elem_of_list_to_set, elem_of_singleton.
    rewrite Hperm. simpl. rewrite elem_of_cons. done.
Qed.

(** ** [push] and [replace] *)

Lemma push_at_absent (d : nat) (x : SearchNode) (c : Z) (q : PriorityQ) :
  state x ∉ s q ->
  push_at (S d) x c q
  = match heappush entry_lt (l q) (c, x) with
    | (l', Raise e) => ({| l := l'; s := s q |}, Raise e)
    | (l', Ok _) => ({| l := l'; s := {[state x]} ∪ s q |}, Ok tt)
    end.
Proof. intros Hnot. simpl. by rewrite bool_decide_eq_false_2. Qed.

Lemma push_at_present (d : nat) (x : SearchNode) (c : Z) (q : PriorityQ) :
  state x ∈ s q -> push_at (S d) x c q = replace_at d x c q.
Proof. intros Hin. simpl. by rewrite bool_decide_eq_true_2. Qed.

Lemma union_difference_singleton (st : State) (X : gset State) :
  {[st]} ∪ X ∖ {[st]} = {[st]} ∪ X.
Proof.
  apply set_eq. intros y.
  rewrite !elem_of_union, elem_of_difference, elem_of_singleton.
  destruct (decide (y = st)); tauto.
Qed.

Lemma not_in_difference_singleton (st : State) (X : gset State) :
  st ∉ X ∖ {[st]}.
Proof. rewrite elem_of_difference, elem_of_singleton. tauto. Qed.

Lemma replace_at_spec (depth : nat) (x : SearchNode) (c : Z) (q q' : PriorityQ) :
  one_entry_per_state q ->
  replace_at depth x c q = (q', Ok tt) ->
  l q' ≡ₚ (c, x) :: others x q /\ s q' = {[state x]} ∪ s q /\
  one_entry_per_state q' /\ heap_ordered q'.
Proof.
  intros Hinv. destruct depth as [|d]; [done|]. simpl.
  destruct (replace_scan_inv x q Hinv) as [-> Hinv1]. simpl.
  destruct (heapify entry_lt (others x q)) as [l2 [[]|]] eqn:Hfy; [|done].
  pose proof (heapify_perm _ _ entry_lt_sound _ _ Hfy) as Hperm2.
  pose proof (heapify_heap _ _ entry_lt_sound _ _ Hfy) as Hheap2.
  destruct d as [|d]; [done|].
  rewrite push_at_absent by apply not_in_difference_singleton. simpl.
  destruct (heappush entry_lt l2 (c, x)) as [l3 [[]|]] eqn:Hpush; [|done].
  pose proof (heappush_perm entry_lt _ _ _ Hpush) as Hperm3.
  pose proof (heappush_heap _ _ entry_lt_sound _ _ _ Hheap2 Hpush) as Hheap3.
  intros [= <-]. simpl.
  split; [by rewrite Hperm3, Hperm2|].
  split; [apply union_difference_singleton|].
  split; [|done].
  apply (one_entry_per_state_add l2 l3 _ x c);
    [done|apply not_in_difference_singleton|].
  by apply (one_entry_per_state_perm (others x q)).
Qed.

Lemma others_absent (x : SearchNode) (q : PriorityQ) :
  one_entry_per_state q -> state x ∉ s q -> others x q = l q.
Proof.
  intros [_ Hset] Hnot. unfold others. apply scan_absent.
  intros Hin. apply Hnot. rewrite Hset. by apply elem_of_list_to_set.
Qed.

Lemma push_at_spec (depth : nat) (x : SearchNode) (c : Z) (q q' : PriorityQ) :
  one_entry_per_state q ->
  push_at depth x c q = (q', Ok tt) ->
  l q' ≡ₚ (c, x) :: others x q /\ s q' = {[state x]} ∪ s q /\
  one_entry_per_state q' /\ (heap_ordered q -> heap_ordered q').
Proof.
  intros Hinv. destruct depth as [|d]; [done|].
  destruct (decide (state x ∈ s q)) as [Hin|Hnot].
  - rewrite push_at_present by done.
    intros Hrun. apply replace_at_spec in Hrun; [|done]. tauto.
  - rewrite push_at_absent by done.
    destruct (heappush entry_lt (l q) (c, x)) as [l3 [[]|]] eqn:Hpush; [|done].
    pose proof (heappush_perm entry_lt _ _ _ Hpush) as Hperm3.
    intros [= <-]. simpl. rewrite others_absent by done.
    split; [done|]. split; [done|]. split.
    + apply (one_entry_per_state_add (l q) l3 _ x c); [done|done|by destruct q].
    + intros Hheap. apply (heappush_heap _ _ entry_lt_sound _ _ _ Hheap Hpush).
Qed.

Lemma replace_at_ok (d : nat) (x : SearchNode) (c : Z) (q : PriorityQ) :
  one_entry_per_state q ->
  NoDup (c :: costs_of (others x q)) ->
  exists q', replace_at (S (S d)) x c q = (q', Ok tt).
Proof.
  intros Hinv Hnd.
  cbn [replace_at]. destruct (replace_scan_inv x q Hinv) as [-> Hinv1].
  cbn [l s].
  destruct (heapify_ok entry_lt fst entry_lt_sound entry_lt_total (others x q))
    as [l2 Hfy].
  { by apply NoDup_cons in Hnd as [_ Hnd]. }
  rewrite Hfy.
  pose proof (heapify_perm _ _ entry_lt_sound _ _ Hfy) as Hperm2.
  rewrite push_at_absent by apply not_in_difference_singleton. cbn [l s].
  destruct (heappush_ok entry_lt fst entry_lt_total l2 (c, x))
    as [l3 Hpush].
  { rewrite Hperm2. done. }
  rewrite Hpush. by eexists.
Qed.

Lemma push_at_ok (d : nat) (x : SearchNode) (c : Z) (q : PriorityQ) :
  one_entry_per_state q ->
  NoDup (c :: costs_of (others x q)) ->
  exists q', push_at (S (S (S d))) x c q = (q', Ok tt).
Proof.
  intros Hinv Hnd.
  destruct (decide (state x ∈ s q)) as [Hin|Hnot].
  - rewrite push_at_present by done. by apply replace_at_ok.
  - rewrite push_at_absent by done.
    rewrite others_absent in Hnd by done.
    destruct (heappush_ok entry_lt fst entry_lt_total (l q) (c, x))
      as [l3 Hpush]; [done|].
    rewrite Hpush. by eexists.
Qed.

(** ** [pop] *)

Lemma pop_empty (st : gset State) :
  pop {| l := []; s := st |} = ({| l := []; s := st |}, Raise IndexError).
Proof. reflexivity. Qed.

Lemma pop_spec (q q' : PriorityQ) (x : SearchNode) :
  one_entry_per_state q ->
  pop q = (q', Ok x) ->
  exists c,
    l q !! 0%nat = Some (c, x) /\ l q ≡ₚ (c, x) :: l q' /\
    s q' = s q ∖ {[state x]} /\ one_entry_per_state q' /\
    (heap_ordered q -> heap_ordered q').
Proof.
  intros [Hnd Hset]. unfold pop.
  destruct (heappop entry_lt (l q)) as [l' [[c y]|]] eqn:Hpop; [|done].
  pose proof (heappop_perm _ _ entry_lt_sound _ _ _ Hpop) as [Hroot Hperm].
  unfold set_remove, entry_state. simpl.
  destruct (bool_decide (state y ∈ s q)) eqn:Hmem; [|done].
  intros [= <- <-]. exists c. simpl.
  split; [done|]. split; [done|]. split; [done|]. split.
  - unfold one_entry_per_state, states_of in *. simpl.
    rewrite Hperm in Hnd. simpl in Hnd. apply NoDup_cons in Hnd as [Hfresh Hnd].
    split; [done|].
    rewrite Hset. apply set_eq. intros st.
    rewrite elem_of_difference, !elem_of_list_to_set, elem_of_singleton.
    rewrite Hperm. simpl. rewrite elem_of_cons. unfold entry_state at 1. simpl.
    split; [|naive_solver].
    intros [[->|Hin] Hne]; [done|done].
  - intros Hheap. apply (heappop_heap _ _ entry_lt_sound _ _ _ Hheap Hpop).
Qed.

Lemma pop_ok (q : PriorityQ) :
  one_entry_per_state q -> l q <> [] -> NoDup (costs_of (l q)) ->
  exists q' x, pop q = (q', Ok x).
Proof.
  intros [Hnd Hset] Hne Hcosts. unfold pop.
  destruct (heappop_ok entry_lt fst entry_lt_sound entry_lt_total (l q) Hne Hcosts)
    as (l' & e & Hpop).
  rewrite Hpop.
  pose proof (heappop_perm _ _ entry_lt_sound _ _ _ Hpop) as [Hroot Hperm].
  unfold set_remove. rewrite bool_decide_eq_true_2; [by eexists _, _|].
  rewrite Hset. apply elem_of_list_to_set. unfold states_of.
  apply list_elem_of_fmap. exists e. split; [done|].
  by eapply list_elem_of_lookup_2.
Qed.

(** ** Runs of operations *)

Lemma PriorityQ_init_inv :
  one_entry_per_state PriorityQ_init /\ heap_ordered PriorityQ_init.
Proof.
  split.
  - split; [constructor|done].
  - intros c _ _ a b Ha _. done.
Qed.

Lemma run_op_inv (o : op) (q q' : PriorityQ) :
  one_entry_per_state q ->
  run_op o q = (q', Ok tt) ->
  one_entry_per_state q' /\ (heap_ordered q -> heap_ordered q').
Proof.
  intros Hinv. destruct o as [x c|x c|]; cbn [run_op].
  - unfold push. intros Hrun. apply push_at_spec in Hrun; [|done]. tauto.
  - unfold replace. intros Hrun. apply replace_at_spec in Hrun; [|done]. tauto.
  - destruct (pop q) as [q1 [x|]] eqn:Hpop; [|done].
    intros [= <-]. apply pop_spec in Hpop as (c & _ & _ & _ & Hinv' & Hheap);
      [|done].
    done.
Qed.

Lemma run_ops_inv (os : list op) :
  forall q q',
    one_entry_per_state q ->
    run_ops os q = Some q' ->
    one_entry_per_state q' /\ (heap_ordered q -> heap_ordered q').
Proof.
  induction os as [|o os IH]; intros q q' Hinv Hrun; simpl in Hrun.
  { by injection Hrun as <-. }
  destruct (run_op o q) as [q1 [[]|]] eqn:Hop; [|done].
  apply run_op_inv in Hop as [Hinv1 Hheap1]; [|done].
  apply IH in Hrun as [Hinv' Hheap']; [|done].
  split; [done|]. auto.
Qed.

(** * The claims about the frontier *)

(** C1, as the code has it.  Pushing a node whose state already has an
    entry always replaces that entry by the new node and the new cost,
    whether the new cost is lower or not (the costs being pairwise
    distinct, so that the heap can be rebuilt): afterwards the frontier
    holds exactly one entry for the state, the pushed one, and the
    membership set is unchanged. *)
Theorem push_existing_state_replaces (x : SearchNode) (c : Z) (q : PriorityQ) :
  one_entry_per_state q ->
  state x ∈ s q ->
  NoDup (c :: costs_of (others x q)) ->
  exists q',
    push x c q = (q', Ok tt) /\
    entries_for (state x) q' = [(c, x)] /\
    get_cost q' x = Some c /\
    l q' ≡ₚ (c, x) :: others x q /\
    s q' = s q /\
    one_entry_per_state q' /\ heap_ordered q'.
Proof.
  intros Hinv Hin Hnd. unfold push, recursion_limit.
  destruct (push_at_ok 997 x c q Hinv Hnd) as [q' Hrun].
  exists q'. split; [done|].
  pose proof Hrun as Hspec.
  rewrite push_at_present in Hspec by done.
  apply replace_at_spec in Hspec as (Hperm & Hset & Hinv' & Hheap'); [|done].
  assert (entries_for (state x) q' = [(c, x)]) as Hent.
  { apply Permutation_singleton_r. unfold entries_for. rewrite Hperm.
    rewrite filter_cons_True by done.
    rewrite filter_none; [done|].
    apply Forall_forall. intros e [He _]%list_elem_of_filter. done. }
  split; [done|]. split.
  { unfold get_cost. unfold entries_for in Hent.
    destruct (list_find (λ y, entry_state y = state x) (l q')) as [[i y]|] eqn:Hf.
    - apply list_find_Some in Hf as (Hi & Hy & _).
      assert (y ∈ filter (λ e, entry_state e = state x) (l q')) as Hyin.
      { apply list_elem_of_filter. split; [done|].
        by eapply list_elem_of_lookup_2. }
      rewrite Hent in Hyin. apply list_elem_of_singleton in Hyin. by subst.
    - apply list_find_None in Hf.
      assert ((c, x) ∈ filter (λ e, entry_state e = state x) (l q')) as Hcx
        by (rewrite Hent; apply list_elem_of_here).
      apply list_elem_of_filter in Hcx as [_ Hcx].
      rewrite Forall_forall in Hf. by apply Hf in Hcx. }
  split; [done|]. split; [|done].
  rewrite Hset. apply set_eq. intros y.
  rewrite elem_of_union, elem_of_singleton. split; [|tauto].
  by intros [->|?].
Qed.

Lemma frontier_a3_inv : one_entry_per_state frontier_a3.
Proof.
  split; simpl.
  - apply NoDup_singleton.
  - vm_compute. reflexivity.
Defined.

Lemma push_existing_state_replaces_witness :
  exists q',
    push node_a7 7 frontier_a3 = (q', Ok tt) /\
    entries_for (state node_a7) q' = [(7, node_a7)] /\
    get_cost q' node_a7 = Some 7 /\
    l q' ≡ₚ (7, node_a7) :: others node_a7 frontier_a3 /\
    s q' = s frontier_a3 /\
    one_entry_per_state q' /\ heap_ordered q'.
Proof.
  apply (push_existing_state_replaces node_a7 7 frontier_a3).
  - exact frontier_a3_inv.
  - simpl. apply elem_of_singleton. reflexivity.
  - vm_compute. apply NoDup_singleton.
Defined.

(** C1, as stated, fails on its own scenario: after the pushes with
    costs 5 and 3 the frontier holds the one entry of cost 3, and the push
    with cost 7 replaces it by the entry of cost 7. *)
Lemma push_higher_cost_replaces :
  exists q2 q3,
    run_ops [OpPush node_a5 5; OpPush node_a3 3] PriorityQ_init = Some q2 /\
    l q2 = [(3, node_a3)] /\
    push node_a7 7 q2 = (q3, Ok tt) /\
    l q3 = [(7, node_a7)] /\
    get_cost q3 node_a7 = Some 7 /\
    get_cost q3 node_a7 <> Some 3.
Proof.
  eexists _, _. split; [vm_compute; reflexivity|].
  split; [reflexivity|]. split; [vm_compute; reflexivity|].
  split; [reflexivity|]. split; [reflexivity|]. discriminate.
Qed.

(** X20.  With pairwise distinct costs [pop] returns the lowest one.
    On a frontier built from the empty one by operations that returned
    normally, non-empty and whose costs are pairwise distinct, [pop]
    returns normally, and what it returns and removes is the entry whose
    cost is strictly lower than the cost of every other entry. *)
Theorem pop_returns_lowest_cost (os : list op) (q : PriorityQ) :
  run_ops os PriorityQ_init = Some q ->
  l q <> [] ->
  NoDup (costs_of (l q)) ->
  exists q' x c,
    pop q = (q', Ok x) /\
    (c, x) ∈ l q /\
    (forall e, e ∈ l q -> e <> (c, x) -> c < fst e) /\
    l q ≡ₚ (c, x) :: l q' /\
    s q' = s q ∖ {[state x]}.
Proof.
  intros Hrun Hne Hcosts.
  destruct PriorityQ_init_inv as [Hinv0 Hheap0].
  destruct (run_ops_inv os _ _ Hinv0 Hrun) as [Hinv Hheap].
  specialize (Hheap Hheap0).
  destruct (pop_ok q Hinv Hne Hcosts) as (q' & x & Hpop).
  destruct (pop_spec q q' x Hinv Hpop) as (c & Hroot & Hperm & Hset & _).
  exists q', x, c. split; [done|].
  split; [by eapply list_elem_of_lookup_2|].
  split; [|done].
  intros e [i He]%list_elem_of_lookup Hdiff.
  pose proof (is_heap_root_min fst (l q) (c, x) Hheap Hroot i e He) as Hle.
  simpl in Hle.
  destruct (decide (i = 0%nat)) as [->|Hi].
  { assert (Some e = Some (c, x)) as Heq
      by (transitivity (l q !! 0%nat); [symmetry; exact He|exact Hroot]).
    injection Heq as ->. done. }
  assert (fst (c, x) <> fst e) as Hneq; [|simpl in Hneq; lia].
  apply (distinct_keys fst (l q) 0 i); done.
Qed.

Lemma pop_returns_lowest_cost_witness :
  exists q' x c,
    pop frontier_cb = (q', Ok x) /\
    (c, x) ∈ l frontier_cb /\
    (forall e, e ∈ l frontier_cb -> e <> (c, x) -> c < fst e) /\
    l frontier_cb ≡ₚ (c, x) :: l q' /\
    s q' = s frontier_cb ∖ {[state x]}.
Proof.
  apply (pop_returns_lowest_cost [OpPush node_c 2; OpPush node_b 1] frontier_cb).
  - vm_compute. reflexivity.
  - discriminate.
  - vm_compute. apply NoDup_cons. split; [|apply NoDup_singleton].
    intros H%list_elem_of_singleton. discriminate H.
Defined.

(** C4.  The code does not do what the claim, and the docstring of [pop],
    say.  After the pushes of costs 2, 1 and 2 for three different states,
    which all return normally, the entry of cost 1 is the one of lowest
    cost, and [pop] raises [TypeError] instead of returning it; and there
    is no tie-break by insertion: a node cannot even be pushed after
    another one of the same cost, the push raises [TypeError]. *)
Theorem pop_with_equal_costs_raises :
  (exists q,
     run_ops [OpPush node_c 2; OpPush node_b 1; OpPush node_d 2] PriorityQ_init
     = Some q /\
     costs_of (l q) = [1; 2; 2] /\
     snd (pop q) = Raise TypeError) /\
  snd (push node_d 2 (fst (push node_c 2 PriorityQ_init))) = Raise TypeError.
Proof.
  split.
  - eexists. split; [vm_compute; reflexivity|]. split; reflexivity.
  - reflexivity.
Qed.

(** X19.  Calls that return keep the invariant.  From a frontier in
    which no two entries share a state and the membership set is the set
    of the stored states, a run of [push], [pop] and [replace] calls that
    all return normally ends in such a frontier. *)
Theorem one_entry_per_state_preserved (os : list op) (q q' : PriorityQ) :
  one_entry_per_state q ->
  run_ops os q = Some q' ->
  one_entry_per_state q'.
Proof.
  intros Hinv Hrun. by destruct (run_ops_inv os q q' Hinv Hrun).
Qed.

Lemma one_entry_per_state_preserved_witness :
  one_entry_per_state frontier_cb.
Proof.
  apply (one_entry_per_state_preserved
           [OpPush node_c 2; OpPush node_b 1] PriorityQ_init frontier_cb).
  - split; [constructor|reflexivity].
  - vm_compute. reflexivity.
Defined.

Lemma frontier_after_tie_fields :
  l frontier_after_tie = [(2, node_c); (2, node_d)] /\
  s frontier_after_tie = {[ (1, 0) ]}.
Proof. split; vm_compute; reflexivity. Qed.

(** C5.  The code does not keep the invariant at every moment.  The
    push of [node_c] with cost 2 on the empty frontier returns normally
    and leaves the invariant in place.  The push of [node_d], a node of
    another state and of the same cost 2, appends its entry to the list
    and then raises [TypeError] in the heap comparison, before the state
    is added to the set: the list holds entries for the states [(1, 0)]
    and [(1, 1)] while the membership set holds [(1, 0)] alone. *)
Theorem push_equal_cost_leaves_set_behind :
  snd (push node_c 2 PriorityQ_init) = Ok tt /\
  one_entry_per_state (fst (push node_c 2 PriorityQ_init)) /\
  snd (push node_d 2 (fst (push node_c 2 PriorityQ_init))) = Raise TypeError /\
  states_of (l frontier_after_tie) = [(1, 0); (1, 1)] /\
  elements (s frontier_after_tie) = [(1, 0)] /\
  ~ one_entry_per_state frontier_after_tie.
Proof.
  destruct frontier_after_tie_fields as [Hl Hs].
  split; [reflexivity|].
  split.
  { destruct PriorityQ_init_inv as [Hinv0 _].
    apply (run_ops_inv [OpPush node_c 2] PriorityQ_init); [done|].
    vm_compute. reflexivity. }
  split; [reflexivity|]. split; [reflexivity|]. split; [reflexivity|].
  intros [_ Hset]. rewrite Hl, Hs in Hset.
  assert ((1, 1) ∈ ({[ (1, 0) ]} : gset State)) as Hin.
  { rewrite Hset. apply elem_of_list_to_set.
    change ((1, 1) ∈ [(1, 0); (1, 1)]).
    apply elem_of_cons. right. apply list_elem_of_here. }
  apply elem_of_singleton in Hin. discriminate Hin.
Qed.

(** C8, as the code has it.  [pop] on an empty frontier raises
    [IndexError], the exception of [heapq.heappop] on an empty list, and
    leaves the frontier as it was. *)
Theorem pop_empty_raises_IndexError (st : gset State) :
  pop {| l := []; s := st |} = ({| l := []; s := st |}, Raise IndexError).
Proof. apply pop_empty. Qed.

(** C8, as stated, fails: the exception is not [EmptyFrontierError]. *)
Lemma pop_empty_not_EmptyFrontierError :
  l PriorityQ_init = [] /\
  snd (pop PriorityQ_init) = Raise IndexError /\
  snd (pop PriorityQ_init) <> Raise EmptyFrontierError.
Proof.
  split; [reflexivity|]. split; [reflexivity|]. discriminate.
Qed.

(** * [backpath] *)

Lemma parent_chain_last (n : SearchNode) :
  exists ns, parent_chain n = n :: ns.
Proof. destruct n as [i st acts [p|] pa c]; simpl; by eexists. Qed.

(** C2.  [backpath] returns two empty lists for every node, whereas the
    path the claim describes is never empty: it ends with the state of
    the node.  On a root node the claim asks for the one-state path and
    no action; on its child, for two states and one action. *)
Theorem backpath_returns_empty_lists :
  (forall node, backpath node = ([], [])) /\
  (forall node, last (fst (extract_path_spec node)) = Some (state node)) /\
  (forall node, fst (backpath node) <> fst (extract_path_spec node)) /\
  extract_path_spec root_node = ([(0, 0)], []) /\
  extract_path_spec child_node = ([(0, 0); (1, 0)], [Some "d"%string]) /\
  backpath child_node = ([], []).
Proof.
  assert (forall node, last (fst (extract_path_spec node)) = Some (state node))
    as Hlast.
  { intros node. unfold extract_path_spec. simpl.
    destruct (parent_chain_last node) as [ns ->]. simpl.
    by rewrite last_snoc. }
  split; [done|]. split; [done|]. split.
  { intros node Heq. specialize (Hlast node). rewrite <- Heq in Hlast.
    discriminate Hlast. }
  split; [reflexivity|]. split; reflexivity.
Qed.

(** * Further properties of [GridMap] *)

Lemma target_in_actions (st : State) (a : Action) :
  a ∈ _ACTIONS ->
  Z.abs (s_Y (target st a) - s_Y st) + Z.abs (s_X (target st a) - s_X st) = 1.
Proof.
  intros Ha. unfold _ACTIONS in Ha.
  repeat (apply elem_of_cons in Ha as [->|Ha]; [unfold target, s_Y, s_X; simpl; lia|]).
  by apply elem_of_nil in Ha.
Qed.

Lemma transition_to_free (m : GridMap) (nrows ncols : nat) (g : Grid)
    (st : State) (a : Action) :
  grid_shape m nrows ncols g ->
  in_bounds nrows ncols st ->
  a ∈ _ACTIONS ->
  in_bounds nrows ncols (target st a) ->
  free g (target st a) ->
  transition m st a = ([], Ok (target st a)).
Proof.
  intros Hshape Hin Ha Htin (row' & Hrow' & Hfree).
  destruct (move_known m nrows ncols g Hshape st a Hin Ha)
    as (new_pos & Hmove & Hnew & [[_ ->]|[Hout _]]); [|done].
  destruct (transition_of_move m nrows ncols g Hshape st _ [] a Hmove Hnew)
    as (row & b & Hrow & Hb & ->).
  rewrite Hrow in Hrow'. injection Hrow' as <-.
  rewrite Hb in Hfree. by injection Hfree as ->.
Qed.

(** X1.  A move to a free cell of the grid is carried out.  For an
    in-bounds state and one of the four actions whose target cell is on
    the grid and free, [transition] returns the target cell. *)
Theorem transition_moves_to_free_target (m : GridMap) (nrows ncols : nat)
    (g : Grid) (st : State) (a : Action) :
  grid_shape m nrows ncols g ->
  in_bounds nrows ncols st ->
  a ∈ _ACTIONS ->
  in_bounds nrows ncols (target st a) ->
  free g (target st a) ->
  transition m st a = ([], Ok (target st a)) /\
  Z.abs (s_Y (target st a) - s_Y st) + Z.abs (s_X (target st a) - s_X st) = 1.
Proof.
  intros Hshape Hin Ha Htin Hfree.
  split; [by eapply transition_to_free|by apply target_in_actions].
Qed.

Lemma transition_moves_to_free_target_witness :
  transition demo_map (0, 0) "d" = ([], Ok (target (0, 0) "d")) /\
  Z.abs (s_Y (target (0, 0) "d") - s_Y (0, 0))
  + Z.abs (s_X (target (0, 0) "d") - s_X (0, 0)) = 1.
Proof.
  apply (transition_moves_to_free_target demo_map 3 3 demo_grid (0, 0) "d").
  - exact demo_map_shape.
  - unfold in_bounds; simpl; lia.
  - unfold _ACTIONS. set_solver.
  - unfold in_bounds; simpl; lia.
  - exists [false; false; true]. split; reflexivity.
Defined.

(** X2.  Whatever the action symbol, [transition] from an in-bounds state
    returns an in-bounds state at most one cell away, and a state other
    than the given one only if its cell is free. *)
Theorem transition_one_step_any_action (m : GridMap) (nrows ncols : nat)
    (g : Grid) (st : State) (a : Action) :
  grid_shape m nrows ncols g ->
  in_bounds nrows ncols st ->
  exists out st',
    transition m st a = (out, Ok st') /\
    in_bounds nrows ncols st' /\
    Z.abs (s_Y st' - s_Y st) + Z.abs (s_X st' - s_X st) <= 1 /\
    (st' = st \/ free g st').
Proof.
  intros Hshape Hin.
  assert (Z.abs (s_Y st - s_Y st) + Z.abs (s_X st - s_X st) <= 1) as Hzero by lia.
  destruct (decide (a ∈ _ACTIONS)) as [Ha|Ha].
  - destruct (move_known m nrows ncols g Hshape st a Hin Ha)
      as (new_pos & Hmove & Hnew & Hcases).
    destruct (transition_of_move m nrows ncols g Hshape st _ [] a Hmove Hnew)
      as (row & b & Hrow & Hb & ->).
    eexists _, _. split; [reflexivity|].
    destruct b; [split; [done|]; split; [lia|]; by left|].
    split; [done|]. split.
    + destruct Hcases as [[_ ->]|[_ ->]]; [|done].
      pose proof (target_in_actions st a Ha). lia.
    + right. by exists row.
  - pose proof (move_unknown m st a Ha) as Hmove.
    destruct (transition_of_move m nrows ncols g Hshape st st _ a Hmove Hin)
      as (row & b & _ & _ & ->).
    eexists _, _. split; [reflexivity|].
    assert ((if b then st else st) = st) as -> by by destruct b.
    split; [done|]. split; [lia|]. by left.
Qed.

Lemma transition_one_step_any_action_witness :
  exists out st',
    transition demo_map (1, 1) "se" = (out, Ok st') /\
    in_bounds 3 3 st' /\
    Z.abs (s_Y st' - s_Y (1, 1)) + Z.abs (s_X st' - s_X (1, 1)) <= 1 /\
    (st' = (1, 1) \/ free demo_grid st').
Proof.
  apply (transition_one_step_any_action demo_map 3 3 demo_grid (1, 1) "se").
  - exact demo_map_shape.
  - unfold in_bounds; simpl; lia.
Defined.

(** X3.  On a map object into which no map has been read, [transition]
    raises [TypeError] for every state and every action. *)
Theorem transition_without_map_raises (st : State) (a : Action) :
  snd (transition GridMap_blank st a) = Raise TypeError.
Proof.
  unfold transition, move. simpl.
  destruct (String.eqb a "u"); [done|].
  destruct (String.eqb a "d"); [done|].
  destruct (String.eqb a "l"); [done|].
  destruct (String.eqb a "r"); done.
Qed.

Lemma opposite_target (st : State) (a : Action) :
  a ∈ _ACTIONS ->
  opposite a ∈ _ACTIONS /\ target (target st a) (opposite a) = st.
Proof.
  intros Ha. unfold _ACTIONS in *. destruct st as [y x].
  repeat (apply elem_of_cons in Ha as [->|Ha];
          [split; [unfold opposite; simpl; set_solver|
                   unfold target, opposite, s_Y, s_X; simpl; f_equal; lia]|]).
  by apply elem_of_nil in Ha.
Qed.

(** X4.  A move that changed the state is undone by the opposite action.
    From an in-bounds free cell, if one of the four actions leads to
    another cell, the opposite action leads back. *)
Theorem transition_opposite_undoes (m : GridMap) (nrows ncols : nat)
    (g : Grid) (st st' : State) (a : Action) :
  grid_shape m nrows ncols g ->
  in_bounds nrows ncols st ->
  free g st ->
  a ∈ _ACTIONS ->
  transition m st a = ([], Ok st') ->
  st' <> st ->
  transition m st' (opposite a) = ([], Ok st).
Proof.
  intros Hshape Hin Hfree Ha Htr Hne.
  destruct (move_known m nrows ncols g Hshape st a Hin Ha)
    as (new_pos & Hmove & Hnew & Hcases).
  destruct (transition_of_move m nrows ncols g Hshape st _ [] a Hmove Hnew)
    as (row & b & Hrow & Hb & Htr').
  rewrite Htr in Htr'. injection Htr' as ->.
  destruct b; [done|].
  destruct Hcases as [[Htin ->]|[_ ->]]; [|done].
  destruct (opposite_target st a Ha) as [Hopp Hback].
  rewrite <- Hback at 2.
  eapply transition_to_free; try done; by rewrite Hback.
Qed.

Lemma transition_opposite_undoes_witness :
  transition demo_map (1, 0) (opposite "l") = ([], Ok (1, 1)).
Proof.
  apply (transition_opposite_undoes demo_map 3 3 demo_grid (1, 1) (1, 0) "l").
  - exact demo_map_shape.
  - unfold in_bounds; simpl; lia.
  - exists [false; false; true]. split; reflexivity.
  - unfold _ACTIONS. set_solver.
  - reflexivity.
  - discriminate.
Defined.

(** * Further properties of [GridMap.read_map] *)

(** ** The three outcomes *)

Lemma py_max_nonempty (xs : list nat) :
  xs <> [] ->
  exists n, py_max xs = Ok n /\ Forall (fun x => (x <= n)%nat) xs.
Proof.
  destruct xs as [|x xs]; [done|]. intros _. simpl. eexists. split; [done|].
  destruct (foldl_max_ge xs x). by apply Forall_cons.
Qed.

Lemma read_map_rectangular_ok (self : GridMap) (file_lines : list string)
    (ncols : nat) :
  file_lines <> [] -> rectangular file_lines ncols ->
  exists self' out,
    read_map self file_lines = (self', out, Ok tt) /\
    rows self' = Some (Z.of_nat (length file_lines)) /\
    cols self' = Some (Z.of_nat ncols) /\
    grid_dims self' (length file_lines) ncols /\
    goal self'
      = last_or (goal self) (marker_positions ch_g file_lines ncols) /\
    init_pos self'
      = last_or (init_pos self) (marker_positions ch_i file_lines ncols).
Proof.
  intros Hne Hrect. unfold read_map.
  fold (clean_lines file_lines).
  assert (length (clean_lines file_lines) = length file_lines) as Hlen
    by (unfold clean_lines; apply length_map).
  rewrite (py_max_constant ncols).
  2:{ destruct file_lines; [done|]. discriminate. }
  2:{ unfold rectangular in Hrect. by apply Forall_fmap. }
  rewrite Hlen.
  set (self3 := set_occupancy_grid _ _).
  destruct (read_rows_ok (clean_lines file_lines) (length file_lines) ncols
              (seq 0 (length file_lines))) with (self := self3)
    as (self4 & Hrun & Hd & Hr & Hc & Hg & Hi).
  { apply Forall_forall. intros r Hr%elem_of_seq. split; [lia|].
    intros c Hc. apply (rectangular_char_at file_lines ncols); [done|lia|done]. }
  { exists (np_zeros (length file_lines) ncols). split; [done|].
    unfold np_zeros. split; [apply length_replicate|].
    apply Forall_replicate. apply length_replicate. }
  rewrite Hrun. eexists _, _. split; [reflexivity|].
  split; [by rewrite Hr|]. split; [by rewrite Hc|]. split; [done|].
  unfold marker_positions. rewrite Hlen. split; [exact Hg|exact Hi].
Qed.

Lemma read_map_cases (self : GridMap) (file_lines : list string) :
  (file_lines = [] /\ snd (read_map self file_lines) = Raise ValueError) \/
  (file_lines <> [] /\ (exists n, rectangular file_lines n) /\
   snd (read_map self file_lines) = Ok tt) \/
  (file_lines <> [] /\ ~ (exists n, rectangular file_lines n) /\
   snd (read_map self file_lines) = Raise IndexError).
Proof.
  destruct file_lines as [|l0 fl] eqn:Hfl; [by left|]. right.
  rewrite <- Hfl. assert (file_lines <> []) as Hne by by rewrite Hfl.
  clear Hfl l0 fl.
  destruct (py_max_nonempty (map String.length (clean_lines file_lines)))
    as (ncols & Hmax & Hle).
  { unfold clean_lines. destruct file_lines; [done|]. discriminate. }
  destruct (decide (Forall (fun ln => String.length ln = ncols)
                      (clean_lines file_lines))) as [Hrect|Hrag].
  - left. split; [done|]. split; [by exists ncols|].
    destruct (read_map_rectangular_ok self file_lines ncols Hne Hrect)
      as (self' & out & -> & _). done.
  - right. split; [done|].
    apply not_Forall_Exists in Hrag; [|apply _].
    apply Exists_exists in Hrag as (ln & Hln & Hlen). simpl in Hlen.
    assert (String.length ln < ncols)%nat as Hshort.
    { rewrite Forall_forall in Hle.
      assert (String.length ln <= ncols)%nat; [|lia].
      apply Hle. apply list_elem_of_In, in_map, list_elem_of_In. done. }
    split; [|by eapply read_map_short_row_IndexError].
    intros [n Hrect].
    rewrite (py_max_constant n) in Hmax.
    + injection Hmax as ->. unfold rectangular in Hrect.
      rewrite Forall_forall in Hrect. apply Hlen. by apply Hrect.
    + unfold clean_lines. destruct file_lines; [done|]. discriminate.
    + unfold rectangular in Hrect. by apply Forall_fmap.
Qed.

(** X5.  The outcome of [read_map] is decided by the shape of the text.
    It raises [ValueError] exactly on the empty file, returns normally
    exactly on a non-empty file whose stripped lines all have the same
    length, and raises [IndexError] exactly on a non-empty file whose
    stripped lines differ in length. *)
Theorem read_map_outcome (self : GridMap) (file_lines : list string) :
  (snd (read_map self file_lines) = Raise ValueError <-> file_lines = []) /\
  (snd (read_map self file_lines) = Ok tt <->
   file_lines <> [] /\ exists n, rectangular file_lines n) /\
  (snd (read_map self file_lines) = Raise IndexError <->
   file_lines <> [] /\ ~ exists n, rectangular file_lines n).
Proof.
  destruct (read_map_cases self file_lines)
    as [[He Hr]|[(Hne & Hrect & Hr)|(Hne & Hrag & Hr)]]; rewrite Hr.
  - split; [done|]. split; (split; [done|by intros [? _]]).
  - split; [done|]. split; [done|]. split; [done|]. by intros [_ ?].
  - split; [done|]. split; [|done]. split; [done|]. by intros [_ ?].
Qed.

(** ** The occupancy array after loading *)

Lemma np_set_cell (g g' : Grid) (r c r' c' : nat) :
  np_set g r c true = Ok g' ->
  grid_cell g' r' c'
  = if bool_decide (r' = r /\ c' = c) then Some true else grid_cell g r' c'.
Proof.
  unfold np_set, grid_cell.
  destruct (g !! r) as [row|] eqn:Hrow; [|done].
  destruct (c <? length row)%nat eqn:Hc; [|done]. apply Nat.ltb_lt in Hc.
  intros [= <-]. pose proof (lookup_lt_Some _ _ _ Hrow) as Hr.
  destruct (decide (r' = r)) as [->|Hne].
  - rewrite list_lookup_insert_eq by done. rewrite Hrow.
    destruct (decide (c' = c)) as [->|Hnc].
    + rewrite list_lookup_insert_eq by done.
      by rewrite bool_decide_eq_true_2.
    + rewrite list_lookup_insert_ne by done.
      rewrite bool_decide_eq_false_2; [done|]. by intros [_ ?].
  - rewrite list_lookup_insert_ne by done.
    rewrite bool_decide_eq_false_2; [done|]. by intros [? _].
Qed.

Lemma read_cell_grid lines r c self self' g :
  occupancy_grid self = Some g ->
  read_cell lines r c self = (self', Ok tt) ->
  exists g',
    occupancy_grid self' = Some g' /\
    forall r' c',
      grid_cell g' r' c'
      = if bool_decide (r' = r /\ c' = c) && cell_is lines ch_x r' c'
        then Some true else grid_cell g r' c'.
Proof.
  intros Hg. unfold read_cell, cell_is.
  destruct (char_at lines r c) as [ch|] eqn:Hch; [|done].
  destruct (Ascii.eqb ch ch_x) eqn:Ex.
  - rewrite Hg. destruct (np_set g r c true) as [g1|] eqn:Hset; [|done].
    apply Ascii.eqb_eq in Ex. subst ch. simpl.
    intros [= <-]. exists g1. split; [done|].
    intros r' c'. rewrite (np_set_cell g g1 r c r' c' Hset).
    destruct (bool_decide (r' = r /\ c' = c)) eqn:Hd; [|done].
    apply bool_decide_eq_true_1 in Hd as [-> ->]. by rewrite Hch.
  - intros Hrun. exists g. split.
    + destruct (Ascii.eqb ch ch_g); [by simplify_eq|].
      destruct (Ascii.eqb ch ch_i); by simplify_eq.
    + intros r' c'.
      destruct (bool_decide (r' = r /\ c' = c)) eqn:Hd; [|done].
      apply bool_decide_eq_true_1 in Hd as [-> ->]. by rewrite Hch, Ex.
Qed.

Lemma read_row_grid lines r cs :
  forall self self' g,
    occupancy_grid self = Some g ->
    read_row lines r cs self = (self', Ok tt) ->
    exists g',
      occupancy_grid self' = Some g' /\
      forall r' c',
        grid_cell g' r' c'
        = if bool_decide (r' = r /\ c' ∈ cs) && cell_is lines ch_x r' c'
          then Some true else grid_cell g r' c'.
Proof.
  induction cs as [|c cs IH]; intros self self' g Hg Hrun; simpl in Hrun.
  { injection Hrun as <-. exists g. split; [done|]. intros r' c'.
    rewrite bool_decide_eq_false_2; [done|].
    intros [_ H]. by apply elem_of_nil in H. }
  destruct (read_cell lines r c self) as [self1 [[]|]] eqn:Hcell; [|done].
  destruct (read_cell_grid _ _ _ _ _ _ Hg Hcell) as (g1 & Hg1 & Hcells1).
  destruct (IH _ _ _ Hg1 Hrun) as (g' & Hg' & Hcells').
  exists g'. split; [done|]. intros r' c'.
  rewrite Hcells', Hcells1.
  destruct (cell_is lines ch_x r' c'); rewrite ?andb_true_r, ?andb_false_r;
    [|done].
  destruct (decide (r' = r)) as [->|Hr].
  2:{ rewrite !bool_decide_eq_false_2; [done|tauto|tauto|tauto]. }
  destruct (decide (c' = c)) as [->|Hc].
  - rewrite (bool_decide_eq_true_2 (r = r /\ c = c)) by done.
    rewrite (bool_decide_eq_true_2 (r = r /\ c ∈ c :: cs));
      [|by split; [|apply elem_of_cons; left]].
    by destruct (bool_decide _).
  - rewrite (bool_decide_eq_false_2 (r = r /\ c' = c)) by tauto.
    destruct (decide (c' ∈ cs)) as [Hin|Hnin].
    + rewrite !bool_decide_eq_true_2;
        [done|by split; [|apply elem_of_cons; right]|done].
    + rewrite !bool_decide_eq_false_2; [done| |tauto].
      intros [_ [?|?]%elem_of_cons]; done.
Qed.

Lemma read_rows_grid lines ncols rs :
  forall self self' g,
    occupancy_grid self = Some g ->
    read_rows lines ncols rs self = (self', Ok tt) ->
    exists g',
      occupancy_grid self' = Some g' /\
      forall r' c',
        grid_cell g' r' c'
        = if bool_decide (r' ∈ rs /\ c' ∈ seq 0 ncols)
             && cell_is lines ch_x r' c'
          then Some true else grid_cell g r' c'.
Proof.
  induction rs as [|r rs IH]; intros self self' g Hg Hrun; simpl in Hrun.
  { injection Hrun as <-. exists g. split; [done|]. intros r' c'.
    rewrite bool_decide_eq_false_2; [done|].
    intros [H _]. by apply elem_of_nil in H. }
  destruct (read_row lines r (seq 0 ncols) self) as [self1 [[]|]] eqn:Hrow;
    [|done].
  destruct (read_row_grid _ _ _ _ _ _ Hg Hrow) as (g1 & Hg1 & Hcells1).
  destruct (IH _ _ _ Hg1 Hrun) as (g' & Hg' & Hcells').
  exists g'. split; [done|]. intros r' c'.
  rewrite Hcells', Hcells1.
  destruct (cell_is lines ch_x r' c'); rewrite ?andb_true_r, ?andb_false_r;
    [|done].
  destruct (decide (c' ∈ seq 0 ncols)) as [Hc|Hc].
  2:{ rewrite !bool_decide_eq_false_2; [done|tauto|tauto|tauto]. }
  destruct (decide (r' = r)) as [->|Hr].
  - rewrite (bool_decide_eq_true_2 (r = r /\ c' ∈ seq 0 ncols)) by done.
    rewrite (bool_decide_eq_true_2 (r ∈ r :: rs /\ _));
      [|by split; [apply elem_of_cons; left|]].
    by destruct (bool_decide _).
  - rewrite (bool_decide_eq_false_2 (r' = r /\ _)) by tauto.
    destruct (decide (r' ∈ rs)) as [Hin|Hnin].
    + rewrite !bool_decide_eq_true_2;
        [done|by split; [apply elem_of_cons; right|]|done].
    + rewrite !bool_decide_eq_false_2; [done| |tauto].
      intros [[?|?]%elem_of_cons _]; done.
Qed.

Lemma grid_cell_zeros (nrows ncols r c : nat) :
  (r < nrows)%nat -> (c < ncols)%nat ->
  grid_cell (np_zeros nrows ncols) r c = Some false.
Proof.
  intros Hr Hc. unfold grid_cell, np_zeros.
  rewrite lookup_replicate_2 by done. by rewrite lookup_replicate_2.
Qed.

(** X6.  What a successful load stores.  On a non-empty file whose
    stripped lines all have length [ncols], [read_map] returns normally
    and leaves a map object with [rows] and [cols] set to the size of the
    text and an occupancy array of that shape in which a cell is [True]
    exactly when the text has an [x] (in either case) at that place. *)
Theorem read_map_occupancy (self : GridMap) (file_lines : list string)
    (ncols : nat) :
  file_lines <> [] ->
  rectangular file_lines ncols ->
  exists self' out g,
    read_map self file_lines = (self', out, Ok tt) /\
    grid_shape self' (length file_lines) ncols g /\
    forall r c, (r < length file_lines)%nat -> (c < ncols)%nat ->
      grid_cell g r c = Some (cell_is (clean_lines file_lines) ch_x r c).
Proof.
  intros Hne Hrect.
  destruct (read_map_rectangular_ok self file_lines ncols Hne Hrect)
    as (self' & out & Hrun & Hrows & Hcols & (g & Hg & Hlen & Hall) & _).
  exists self', out, g. split; [done|]. split; [done|].
  unfold read_map in Hrun. fold (clean_lines file_lines) in Hrun.
  assert (length (clean_lines file_lines) = length file_lines) as Hlen'
    by (unfold clean_lines; apply length_map).
  rewrite (py_max_constant ncols) in Hrun.
  2:{ unfold clean_lines. destruct file_lines; [done|]. discriminate. }
  2:{ unfold rectangular in Hrect. by apply Forall_fmap. }
  rewrite Hlen' in Hrun.
  destruct (read_rows _ _ _ _) as [self4 res] eqn:Hloop.
  injection Hrun as -> _ ->.
  eapply read_rows_grid in Hloop as (g' & Hg' & Hcells); [|reflexivity].
  rewrite Hg in Hg'. injection Hg' as <-.
  intros r c Hr Hc. rewrite Hcells, grid_cell_zeros by done.
  rewrite bool_decide_eq_true_2.
  2:{ split; apply elem_of_seq; lia. }
  by destruct (cell_is _ _ _ _).
Qed.

Lemma read_map_occupancy_witness :
  exists self' out g,
    read_map GridMap_blank map_3x3 = (self', out, Ok tt) /\
    grid_shape self' (length map_3x3) 3 g /\
    forall r c, (r < length map_3x3)%nat -> (c < 3)%nat ->
      grid_cell g r c = Some (cell_is (clean_lines map_3x3) ch_x r c).
Proof.
  apply (read_map_occupancy GridMap_blank map_3x3 3).
  - discriminate.
  - exact map_3x3_rectangular.
Defined.

(** ** Markers and [is_goal] *)

Lemma elem_of_marker_cells lines ch rs cs (p : State) :
  p ∈ marker_cells lines ch rs cs ->
  exists r c, p = (Z.of_nat r, Z.of_nat c) /\ cell_is lines ch r c = true.
Proof.
  unfold marker_cells.
  intros (r & Hp & _)%list_elem_of_bind.
  apply list_elem_of_bind in Hp as (c & Hp & _).
  destruct (cell_is lines ch r c) eqn:Hcell; [|by apply elem_of_nil in Hp].
  apply list_elem_of_singleton in Hp. by exists r, c.
Qed.

Lemma cell_is_two_chars lines (ch ch' : ascii) r c :
  cell_is lines ch r c = true -> cell_is lines ch' r c = true -> ch = ch'.
Proof.
  unfold cell_is. destruct (char_at lines r c) as [a|]; [|done].
  intros ->%Ascii.eqb_eq ->%Ascii.eqb_eq. done.
Qed.

Lemma is_goal_at (m : GridMap) (p st : State) :
  goal m = Some p -> is_goal m st = Ok (bool_decide (st = p)).
Proof.
  intros Hg. unfold is_goal, s_X, s_Y. rewrite Hg. f_equal.
  destruct st as [y x], p as [py px]. simpl.
  case_bool_decide as Hd.
  - simplify_eq. by rewrite !Z.eqb_refl.
  - destruct (x =? px) eqn:Ex; [|done]. destruct (y =? py) eqn:Ey; [|done].
    apply Z.eqb_eq in Ex, Ey. by subst.
Qed.

(** X7.  Loading a well-formed map and testing the goal.  When the text
    is rectangular and holds exactly one [g], at [p], and exactly one [i],
    at [q], then after [read_map] the goal is [p] and the initial position
    is [q], [is_goal] answers [True] at [p] and [False] everywhere else,
    and in particular [False] at the initial position. *)
Theorem read_map_then_is_goal (self : GridMap) (file_lines : list string)
    (ncols : nat) (p q : State) :
  file_lines <> [] ->
  rectangular file_lines ncols ->
  marker_positions ch_g file_lines ncols = [p] ->
  marker_positions ch_i file_lines ncols = [q] ->
  exists self' out,
    read_map self file_lines = (self', out, Ok tt) /\
    goal self' = Some p /\ init_pos self' = Some q /\
    (forall st, is_goal self' st = Ok (bool_decide (st = p))) /\
    is_goal self' q = Ok false.
Proof.
  intros Hne Hrect Hgs His.
  destruct (read_map_rectangular_ok self file_lines ncols Hne Hrect)
    as (self' & out & Hrun & _ & _ & _ & Hgoal & Hinit).
  rewrite Hgs in Hgoal. rewrite His in Hinit.
  change (goal self' = Some p) in Hgoal. change (init_pos self' = Some q) in Hinit.
  exists self', out. split; [done|]. split; [done|]. split; [done|].
  split; [intros st; by apply is_goal_at|].
  rewrite (is_goal_at self' p q Hgoal). f_equal.
  apply bool_decide_eq_false_2. intros ->.
  assert (p ∈ marker_positions ch_g file_lines ncols) as Hp
    by (rewrite Hgs; apply list_elem_of_here).
  assert (p ∈ marker_positions ch_i file_lines ncols) as Hq
    by (rewrite His; apply list_elem_of_here).
  apply elem_of_marker_cells in Hp as (r & c & -> & Hcg).
  apply elem_of_marker_cells in Hq as (r' & c' & Heq & Hci).
  injection Heq as Hr%Nat2Z.inj Hc%Nat2Z.inj. subst r' c'.
  pose proof (cell_is_two_chars _ _ _ _ _ Hcg Hci) as Hch. discriminate Hch.
Qed.

Lemma read_map_then_is_goal_witness :
  exists self' out,
    read_map GridMap_blank map_3x3 = (self', out, Ok tt) /\
    goal self' = Some (2, 2) /\ init_pos self' = Some (0, 0) /\
    (forall st, is_goal self' st = Ok (bool_decide (st = (2, 2)))) /\
    is_goal self' (0, 0) = Ok false.
Proof.
  apply (read_map_then_is_goal GridMap_blank map_3x3 3 (2, 2) (0, 0)).
  - discriminate.
  - exact map_3x3_rectangular.
  - reflexivity.
  - reflexivity.
Defined.

(** X8.  [is_goal] needs a goal.  On a map object whose [goal] is unset, as
    after loading a text without a [g], [is_goal] raises [TypeError] for
    every state. *)
Theorem is_goal_without_goal_raises (self : GridMap) (file_lines : list string)
    (ncols : nat) :
  goal self = None ->
  file_lines <> [] ->
  rectangular file_lines ncols ->
  marker_positions ch_g file_lines ncols = [] ->
  exists self' out,
    read_map self file_lines = (self', out, Ok tt) /\
    goal self' = None /\
    forall st, is_goal self' st = Raise TypeError.
Proof.
  intros Hnone Hne Hrect Hgs.
  destruct (read_map_rectangular_ok self file_lines ncols Hne Hrect)
    as (self' & out & Hrun & _ & _ & _ & Hgoal & _).
  rewrite Hgs, Hnone in Hgoal. change (goal self' = None) in Hgoal.
  exists self', out. split; [done|]. split; [done|].
  intros st. unfold is_goal. by rewrite Hgoal.
Qed.

Lemma is_goal_without_goal_raises_witness :
  exists self' out,
    read_map GridMap_blank map_no_goal = (self', out, Ok tt) /\
    goal self' = None /\
    forall st, is_goal self' st = Raise TypeError.
Proof.
  apply (is_goal_without_goal_raises GridMap_blank map_no_goal 2).
  - reflexivity.
  - discriminate.
  - repeat constructor.
  - reflexivity.
Defined.

(** ** Letter case and trailing white space *)

Lemma lower_ascii_idem (a : ascii) : lower_ascii (lower_ascii a) = lower_ascii a.
Proof. destruct a as [[] [] [] [] [] [] [] []]; reflexivity. Qed.

Lemma is_space_lower_ascii (a : ascii) : is_space (lower_ascii a) = is_space a.
Proof. destruct a as [[] [] [] [] [] [] [] []]; reflexivity. Qed.

Lemma lower_idem (t : string) : lower (lower t) = lower t.
Proof.
  induction t as [|a t IH]; [done|]. simpl. by rewrite lower_ascii_idem, IH.
Qed.

Lemma is_empty_str_lower (t : string) : is_empty_str (lower t) = is_empty_str t.
Proof. by destruct t. Qed.

Lemma rstrip_lower (t : string) : rstrip (lower t) = lower (rstrip t).
Proof.
  induction t as [|a t IH]; [done|]. simpl.
  rewrite IH, is_empty_str_lower, is_space_lower_ascii.
  by destruct (is_empty_str (rstrip t) && is_space a).
Qed.

Lemma rstrip_all_space (ws : string) : all_space ws = true -> rstrip ws = ""%string.
Proof.
  induction ws as [|a ws IH]; [done|]. simpl.
  intros [Ha Hws]%andb_true_iff. by rewrite IH, Ha.
Qed.

Lemma rstrip_app_space (t ws : string) :
  all_space ws = true -> rstrip (t ++ ws) = rstrip t.
Proof.
  intros Hws. induction t as [|a t IH]; simpl.
  - by apply rstrip_all_space.
  - by rewrite IH.
Qed.

Lemma read_map_clean (self : GridMap) (fl fl' : list string) :
  clean_lines fl = clean_lines fl' -> read_map self fl = read_map self fl'.
Proof.
  intros Heq. unfold read_map. fold (clean_lines fl) (clean_lines fl').
  by rewrite Heq.
Qed.

(** X9.  The map format ignores letter case and trailing white space.
    Reading a text gives the same map object, the same output and the
    same outcome as reading the text with every line in lower case, or with
    any white space appended to every line. *)
Theorem read_map_case_and_trailing_space (self : GridMap)
    (file_lines : list string) (ws : string) :
  all_space ws = true ->
  read_map self (map lower file_lines) = read_map self file_lines /\
  read_map self (map (fun ln => (ln ++ ws)%string) file_lines)
  = read_map self file_lines.
Proof.
  intros Hws. split; apply read_map_clean; unfold clean_lines;
    rewrite map_map; apply map_ext; intros ln.
  - by rewrite rstrip_lower, lower_idem.
  - by rewrite rstrip_app_space.
Qed.

Lemma read_map_case_and_trailing_space_witness :
  read_map GridMap_blank (map lower map_3x3) = read_map GridMap_blank map_3x3 /\
  read_map GridMap_blank (map (fun ln => (ln ++ nl)%string) map_3x3)
  = read_map GridMap_blank map_3x3.
Proof.
  apply (read_map_case_and_trailing_space GridMap_blank map_3x3 nl).
  reflexivity.
Defined.

(** * Further properties of the frontier *)

(** ** Lookup by state *)

Lemma contains_true (q : PriorityQ) (st : State) :
  contains q st = true <-> st ∈ s q.
Proof. unfold contains. apply bool_decide_eq_true. Qed.

Lemma contains_false (q : PriorityQ) (st : State) :
  contains q st = false <-> st ∉ s q.
Proof. unfold contains. apply bool_decide_eq_false. Qed.

Lemma in_states_of (es : list entry) (st : State) :
  st ∈ states_of es <-> exists e, e ∈ es /\ entry_state e = st.
Proof.
  unfold states_of. rewrite list_elem_of_fmap. split.
  - intros (e & -> & He). by exists e.
  - intros (e & He & <-). by exists e.
Qed.

Lemma NoDup_states_inj (es : list entry) (e1 e2 : entry) :
  NoDup (states_of es) -> e1 ∈ es -> e2 ∈ es ->
  entry_state e1 = entry_state e2 -> e1 = e2.
Proof.
  intros Hnd [i Hi]%list_elem_of_lookup [j Hj]%list_elem_of_lookup Heq.
  assert (i = j) as ->; [|congruence].
  apply (NoDup_lookup (states_of es) i j (entry_state e1)); [done| |].
  - unfold states_of. by rewrite list_lookup_fmap, Hi.
  - unfold states_of. by rewrite list_lookup_fmap, Hj, Heq.
Qed.

Lemma get_cost_None (q : PriorityQ) (x : SearchNode) :
  get_cost q x = None <-> state x ∉ states_of (l q).
Proof.
  unfold get_cost.
  destruct (list_find _ (l q)) as [[i y]|] eqn:Hf.
  - split; [done|]. intros Hnot. exfalso. apply Hnot.
    apply list_find_Some in Hf as (Hi & Hy & _).
    apply in_states_of. exists y. split; [|done].
    by eapply list_elem_of_lookup_2.
  - split; [|done]. intros _ (e & He & Hst)%in_states_of.
    apply list_find_None in Hf. rewrite Forall_forall in Hf.
    by apply (Hf e).
Qed.

Lemma get_cost_Some (q : PriorityQ) (x : SearchNode) (c : Z) :
  NoDup (states_of (l q)) ->
  get_cost q x = Some c <->
  exists y, (c, y) ∈ l q /\ state y = state x.
Proof.
  intros Hnd. unfold get_cost. split.
  - destruct (list_find _ (l q)) as [[i [c' y]]|] eqn:Hf; [|done].
    intros [= ->]. apply list_find_Some in Hf as (Hi & Hy & _).
    exists y. split; [by eapply list_elem_of_lookup_2|done].
  - intros (y & Hin & Hst).
    destruct (list_find _ (l q)) as [[i e]|] eqn:Hf.
    + apply list_find_Some in Hf as (Hi & He & _).
      assert (e = (c, y)) as ->; [|done].
      apply (NoDup_states_inj (l q)); [done| |done|].
      * by eapply list_elem_of_lookup_2.
      * by rewrite He.
    + apply list_find_None in Hf. rewrite Forall_forall in Hf.
      by apply Hf in Hin.
Qed.

(** X10.  [get_cost] and [in] agree.  On a frontier that keeps one entry
    per state, [get_cost] returns [None] for a node exactly when the
    state of the node is not in the frontier, and otherwise the cost of
    the one entry stored for that state. *)
Theorem get_cost_agrees_with_contains (q : PriorityQ) (x : SearchNode) :
  one_entry_per_state q ->
  (get_cost q x = None <-> contains q (state x) = false) /\
  (forall c, get_cost q x = Some c <->
             exists y, entries_for (state x) q = [(c, y)]).
Proof.
  intros [Hnd Hset]. split.
  - rewrite get_cost_None, contains_false, Hset.
    by rewrite elem_of_list_to_set.
  - intros c. rewrite get_cost_Some by done. split.
    + intros (y & Hin & Hst). exists y.
      unfold entries_for.
      apply list_elem_of_lookup in Hin as [i Hi].
      rewrite <- (take_drop_middle (l q) i (c, y) Hi) in Hnd |- *.
      unfold states_of in Hnd. rewrite fmap_app, fmap_cons in Hnd.
      apply NoDup_app in Hnd as (_ & Hdisj & Hnd).
      apply NoDup_cons in Hnd as [Hfresh _].
      rewrite filter_app, filter_cons_True by done.
      rewrite !filter_none; [done| |].
      * apply Forall_forall. intros e He Hest. apply Hfresh.
        apply list_elem_of_fmap. exists e. split; [|done].
        rewrite Hest. done.
      * apply Forall_forall. intros e He Hest.
        apply (Hdisj (entry_state e)).
        -- apply list_elem_of_fmap. by exists e.
        -- rewrite Hest, <- Hst. apply list_elem_of_here.
    + intros (y & Hent). exists y.
      assert ((c, y) ∈ entries_for (state x) q) as Hin
        by (rewrite Hent; apply list_elem_of_here).
      unfold entries_for in Hin. apply list_elem_of_filter in Hin as [Hst Hin].
      done.
Qed.

Lemma get_cost_agrees_with_contains_witness :
  (get_cost frontier_cb node_b = None <->
   contains frontier_cb (state node_b) = false) /\
  (forall c, get_cost frontier_cb node_b = Some c <->
             exists y, entries_for (state node_b) frontier_cb = [(c, y)]).
Proof.
  apply (get_cost_agrees_with_contains frontier_cb node_b).
  split; [|reflexivity].
  change (NoDup [(0, 1); (1, 0)]).
  apply NoDup_cons. split; [|apply NoDup_singleton].
  intros H%list_elem_of_singleton. discriminate H.
Defined.

(** ** [push]: insertion and lookup *)

Lemma others_keep (x y : SearchNode) (q : PriorityQ) (c : Z) (n : SearchNode) :
  state n = state y -> state y <> state x ->
  (c, n) ∈ others x q <-> (c, n) ∈ l q.
Proof.
  intros Hn Hne. unfold others. rewrite list_elem_of_filter.
  unfold entry_state. simpl. rewrite Hn. tauto.
Qed.

Lemma get_cost_frame (q q' : PriorityQ) (x y : SearchNode) (c : Z) :
  NoDup (states_of (l q)) -> NoDup (states_of (l q')) ->
  l q' ≡ₚ (c, x) :: others x q ->
  state y <> state x ->
  get_cost q' y = get_cost q y.
Proof.
  intros Hnd Hnd' Hperm Hne.
  assert (forall c' n, state n = state y ->
            (c', n) ∈ l q' <-> (c', n) ∈ l q) as Hmem.
  { intros c' n Hn. rewrite Hperm, elem_of_cons.
    rewrite (others_keep x y q c' n Hn Hne). split; [|tauto].
    intros [[= -> ->]|?]; [|done]. by rewrite Hn in Hne. }
  destruct (get_cost q y) as [c'|] eqn:Hq.
  - apply get_cost_Some in Hq as (n & Hin & Hn); [|done].
    apply get_cost_Some; [done|]. exists n. split; [|done]. by apply Hmem.
  - destruct (get_cost q' y) as [c'|] eqn:Hq'; [|done].
    apply get_cost_Some in Hq' as (n & Hin & Hn); [|done].
    apply Hmem in Hin; [|done].
    apply get_cost_None in Hq. exfalso. apply Hq.
    apply in_states_of. by exists (c', n).
Qed.

(** X11.  Pushing and looking up.  On a frontier that keeps one entry per
    state, a push with a cost different from the costs of the entries of
    the other states returns normally; afterwards [get_cost] gives the
    pushed cost for the pushed node, its state is in the frontier, and
    the answers of [get_cost] and [in] for every other state are as
    before. *)
Theorem push_then_lookup (x : SearchNode) (c : Z) (q : PriorityQ) :
  one_entry_per_state q ->
  NoDup (c :: costs_of (others x q)) ->
  exists q',
    push x c q = (q', Ok tt) /\
    get_cost q' x = Some c /\
    contains q' (state x) = true /\
    forall y, state y <> state x ->
      get_cost q' y = get_cost q y /\
      contains q' (state y) = contains q (state y).
Proof.
  intros Hinv Hnd. unfold push, recursion_limit.
  destruct (push_at_ok 997 x c q Hinv Hnd) as [q' Hrun].
  exists q'. split; [done|].
  apply push_at_spec in Hrun as (Hperm & Hset & [Hnd' Hset'] & _); [|done].
  split.
  { apply get_cost_Some; [done|]. exists x. split; [|done].
    rewrite Hperm. apply list_elem_of_here. }
  split.
  { apply contains_true. rewrite Hset. apply elem_of_union_l.
    by apply elem_of_singleton. }
  intros y Hne. split.
  - destruct Hinv as [Hnd0 _]. by apply (get_cost_frame q q' x y c).
  - unfold contains. apply bool_decide_ext. rewrite Hset.
    rewrite elem_of_union, elem_of_singleton. tauto.
Qed.

Lemma frontier_cb_inv : one_entry_per_state frontier_cb.
Proof.
  split; [|reflexivity].
  change (NoDup [(0, 1); (1, 0)]).
  apply NoDup_cons. split; [|apply NoDup_singleton].
  intros H%list_elem_of_singleton. discriminate H.
Defined.

Lemma NoDup_3_1_2 : NoDup [3; 1; 2].
Proof.
  apply NoDup_cons. split.
  { intros H. apply elem_of_cons in H as [H|H]; [discriminate H|].
    apply list_elem_of_singleton in H. discriminate H. }
  apply NoDup_cons. split; [|apply NoDup_singleton].
  intros H%list_elem_of_singleton. discriminate H.
Defined.

Lemma push_then_lookup_witness :
  exists q',
    push node_a3 3 frontier_cb = (q', Ok tt) /\
    get_cost q' node_a3 = Some 3 /\
    contains q' (state node_a3) = true /\
    forall y, state y <> state node_a3 ->
      get_cost q' y = get_cost frontier_cb y /\
      contains q' (state y) = contains frontier_cb (state y).
Proof.
  apply (push_then_lookup node_a3 3 frontier_cb).
  - exact frontier_cb_inv.
  - exact NoDup_3_1_2.
Defined.

(** X12.  Pushing a node whose state is not in the frontier adds one
    entry.  The list afterwards is a rearrangement of the old entries and
    the new one, the length grows by one, the state joins the membership
    set, and a heap-ordered list stays heap-ordered. *)
Theorem push_new_state_inserts (x : SearchNode) (c : Z) (q : PriorityQ) :
  one_entry_per_state q ->
  contains q (state x) = false ->
  NoDup (c :: costs_of (l q)) ->
  exists q',
    push x c q = (q', Ok tt) /\
    l q' ≡ₚ (c, x) :: l q /\
    len q' = S (len q) /\
    s q' = {[state x]} ∪ s q /\
    (heap_ordered q -> heap_ordered q').
Proof.
  intros Hinv Hnot%contains_false Hnd.
  pose proof (others_absent x q Hinv Hnot) as Hoth.
  unfold push, recursion_limit.
  destruct (push_at_ok 997 x c q Hinv) as [q' Hrun]; [by rewrite Hoth|].
  exists q'. split; [done|].
  apply push_at_spec in Hrun as (Hperm & Hset & _ & Hheap); [|done].
  rewrite Hoth in Hperm.
  split; [done|]. split; [|done].
  unfold len. by rewrite Hperm.
Qed.

Lemma push_new_state_inserts_witness :
  exists q',
    push node_a3 3 frontier_cb = (q', Ok tt) /\
    l q' ≡ₚ (3, node_a3) :: l frontier_cb /\
    len q' = S (len frontier_cb) /\
    s q' = {[state node_a3]} ∪ s frontier_cb /\
    (heap_ordered frontier_cb -> heap_ordered q').
Proof.
  apply (push_new_state_inserts node_a3 3 frontier_cb).
  - exact frontier_cb_inv.
  - reflexivity.
  - exact NoDup_3_1_2.
Defined.



(** ** [peak] and [pop] *)

(** X14.  [peak] shows an entry of lowest cost.  On a frontier built from
    the empty one by operations that returned normally, [peak] raises
    [IndexError] when the frontier is empty and otherwise returns the node
    of the first entry of the list, whose cost is no larger than the cost
    of any entry. *)
Theorem peak_returns_lowest_cost (os : list op) (q : PriorityQ) :
  run_ops os PriorityQ_init = Some q ->
  heap_ordered q /\
  (l q = [] -> peak q = Raise IndexError) /\
  (l q <> [] ->
   exists c x, peak q = Ok x /\ l q !! 0%nat = Some (c, x) /\
               forall e, e ∈ l q -> c <= fst e).
Proof.
  intros Hrun.
  destruct PriorityQ_init_inv as [Hinv0 Hheap0].
  destruct (run_ops_inv os _ _ Hinv0 Hrun) as [Hinv Hheap].
  specialize (Hheap Hheap0). split; [done|]. unfold peak.
  split; [by intros ->|].
  destruct (l q) as [|[c x] es] eqn:Hl; [done|]. intros _.
  exists c, x. split; [done|]. split; [done|].
  intros e [i He]%list_elem_of_lookup.
  unfold heap_ordered in Hheap. rewrite Hl in Hheap.
  apply (is_heap_root_min fst ((c, x) :: es) (c, x) Hheap eq_refl i e He).
Qed.

Lemma peak_returns_lowest_cost_witness :
  heap_ordered frontier_cb /\
  (l frontier_cb = [] -> peak frontier_cb = Raise IndexError) /\
  (l frontier_cb <> [] ->
   exists c x, peak frontier_cb = Ok x /\ l frontier_cb !! 0%nat = Some (c, x) /\
               forall e, e ∈ l frontier_cb -> c <= fst e).
Proof.
  apply (peak_returns_lowest_cost [OpPush node_c 2; OpPush node_b 1] frontier_cb).
  vm_compute. reflexivity.
Defined.

Lemma pop_min_strict (q q' : PriorityQ) (x : SearchNode) :
  one_entry_per_state q -> heap_ordered q -> NoDup (costs_of (l q)) ->
  pop q = (q', Ok x) ->
  exists c,
    l q !! 0%nat = Some (c, x) /\ l q ≡ₚ (c, x) :: l q' /\
    s q' = s q ∖ {[state x]} /\
    one_entry_per_state q' /\ heap_ordered q' /\ NoDup (costs_of (l q')) /\
    forall e, e ∈ l q' -> c < fst e.
Proof.
  intros Hinv Hheap Hcosts Hpop.
  destruct (pop_spec q q' x Hinv Hpop) as (c & Hroot & Hperm & Hset & Hinv' & Hheap').
  exists c. split; [done|]. split; [done|]. split; [done|]. split; [done|].
  split; [auto|].
  unfold costs_of in *. rewrite Hperm in Hcosts. simpl in Hcosts.
  apply NoDup_cons in Hcosts as [Hfresh Hcosts]. split; [done|].
  intros e He.
  assert (e ∈ l q) as [i Hi]%list_elem_of_lookup
    by (rewrite Hperm; by apply elem_of_cons; right).
  pose proof (is_heap_root_min fst (l q) (c, x) Hheap Hroot i e Hi) as Hle.
  simpl in Hle.
  assert (c <> fst e); [|lia].
  intros ->. apply Hfresh. apply list_elem_of_fmap. by exists e.
Qed.

(** X15.  Popping and looking up.  On a non-empty heap-ordered frontier
    that keeps one entry per state and whose costs are pairwise distinct,
    [pop] returns the node [peak] shows; the length drops by one; the
    state of the node is no longer in the frontier and [get_cost] returns
    [None] for it; and the answers of [get_cost] and [in] for every other
    state are as before. *)
Theorem pop_then_lookup (q : PriorityQ) :
  one_entry_per_state q ->
  heap_ordered q ->
  NoDup (costs_of (l q)) ->
  l q <> [] ->
  exists q' x,
    pop q = (q', Ok x) /\
    peak q = Ok x /\
    len q = S (len q') /\
    contains q' (state x) = false /\
    get_cost q' x = None /\
    forall y, state y <> state x ->
      get_cost q' y = get_cost q y /\
      contains q' (state y) = contains q (state y).
Proof.
  intros Hinv Hheap Hcosts Hne.
  destruct (pop_ok q Hinv Hne Hcosts) as (q' & x & Hpop).
  destruct (pop_min_strict q q' x Hinv Hheap Hcosts Hpop)
    as (c & Hroot & Hperm & Hset & [Hnd' Hset'] & _ & _ & _).
  destruct Hinv as [Hnd Hset0].
  exists q', x. split; [done|].
  split. { unfold peak. destruct (l q) as [|e es]; [done|]. by simplify_eq/=. }
  split. { unfold len. by rewrite Hperm. }
  assert (state x ∉ s q') as Hgone.
  { rewrite Hset, elem_of_difference, elem_of_singleton. tauto. }
  split; [by apply contains_false|].
  split. { apply get_cost_None. intros Hin. apply Hgone. rewrite Hset'.
           by apply elem_of_list_to_set. }
  intros y Hy. split.
  - assert (forall c' n, state n = state y ->
              (c', n) ∈ l q' <-> (c', n) ∈ l q) as Hmem.
    { intros c' n Hn. rewrite Hperm, elem_of_cons. split; [tauto|].
      intros [[= -> ->]|?]; [|done]. by rewrite Hn in Hy. }
    destruct (get_cost q y) as [c'|] eqn:Hq.
    + apply get_cost_Some in Hq as (n & Hin & Hn); [|done].
      apply get_cost_Some; [done|]. exists n. split; [|done]. by apply Hmem.
    + destruct (get_cost q' y) as [c'|] eqn:Hq'; [|done].
      apply get_cost_Some in Hq' as (n & Hin & Hn); [|done].
      apply Hmem in Hin; [|done].
      apply get_cost_None in Hq. exfalso. apply Hq.
      apply in_states_of. by exists (c', n).
  - unfold contains. apply bool_decide_ext. rewrite Hset.
    rewrite elem_of_difference, elem_of_singleton. tauto.
Qed.

Lemma NoDup_1_2 : NoDup [1; 2].
Proof.
  apply NoDup_cons. split; [|apply NoDup_singleton].
  intros H%list_elem_of_singleton. discriminate H.
Defined.

Lemma frontier_cb_heap : heap_ordered frontier_cb.
Proof.
  intros c Hc _ a b Ha Hb.
  destruct c as [|[|c]]; [lia| |done].
  vm_compute in Ha, Hb. injection Ha as <-. injection Hb as <-. simpl. lia.
Defined.

Lemma pop_then_lookup_witness :
  exists q' x,
    pop frontier_cb = (q', Ok x) /\
    peak frontier_cb = Ok x /\
    len frontier_cb = S (len q') /\
    contains q' (state x) = false /\
    get_cost q' x = None /\
    forall y, state y <> state x ->
      get_cost q' y = get_cost frontier_cb y /\
      contains q' (state y) = contains frontier_cb (state y).
Proof.
  apply (pop_then_lookup frontier_cb).
  - exact frontier_cb_inv.
  - exact frontier_cb_heap.
  - exact NoDup_1_2.
  - discriminate.
Defined.

Lemma pop_all_sorted (n : nat) :
  forall q,
    length (l q) = n ->
    one_entry_per_state q -> heap_ordered q -> NoDup (costs_of (l q)) ->
    exists q' es,
      pop_all n q = (q', Ok (snd <$> es)) /\
      es ≡ₚ l q /\ StronglySorted Z.lt (fst <$> es) /\
      l q' = [] /\ s q' = ∅.
Proof.
  induction n as [|n IH]; intros q Hlen Hinv Hheap Hcosts.
  { apply nil_length_inv in Hlen. destruct Hinv as [_ Hset].
    exists q, []. simpl. rewrite Hlen in *.
    split; [done|]. split; [done|]. split; [constructor|]. done. }
  assert (l q <> []) as Hne by (intros H; by rewrite H in Hlen).
  destruct (pop_ok q Hinv Hne Hcosts) as (q1 & x & Hpop).
  destruct (pop_min_strict q q1 x Hinv Hheap Hcosts Hpop)
    as (c & _ & Hperm & _ & Hinv1 & Hheap1 & Hcosts1 & Hmin).
  destruct (IH q1) as (q2 & es & Hall & Hperm2 & Hsorted & Hl2 & Hs2);
    [|done|done|done|].
  { apply Permutation_length in Hperm. simpl in Hperm. lia. }
  exists q2, ((c, x) :: es). simpl. rewrite Hpop, Hall.
  split; [done|]. split; [by rewrite Hperm, Hperm2|].
  split; [|done].
  constructor; [done|].
  apply Forall_forall. intros k (e & -> & He)%list_elem_of_fmap.
  apply Hmin. by rewrite <- Hperm2.
Qed.

(** X16.  Popping everything gives the nodes in increasing order of cost.
    On a frontier built from the empty one by operations that returned
    normally, with pairwise distinct costs, [len] successive calls of
    [pop] all return normally; the nodes come out with their entries in
    strictly increasing order of cost, every entry comes out once, and
    the frontier is left empty. *)
Theorem pop_all_in_cost_order (os : list op) (q : PriorityQ) :
  run_ops os PriorityQ_init = Some q ->
  NoDup (costs_of (l q)) ->
  exists q' es,
    pop_all (len q) q = (q', Ok (snd <$> es)) /\
    es ≡ₚ l q /\ StronglySorted Z.lt (fst <$> es) /\
    l q' = [] /\ s q' = ∅.
Proof.
  intros Hrun Hcosts.
  destruct PriorityQ_init_inv as [Hinv0 Hheap0].
  destruct (run_ops_inv os _ _ Hinv0 Hrun) as [Hinv Hheap].
  by apply pop_all_sorted; auto.
Qed.

Lemma pop_all_in_cost_order_witness :
  exists q' es,
    pop_all (len frontier_cb) frontier_cb = (q', Ok (snd <$> es)) /\
    es ≡ₚ l frontier_cb /\ StronglySorted Z.lt (fst <$> es) /\
    l q' = [] /\ s q' = ∅.
Proof.
  apply (pop_all_in_cost_order [OpPush node_c 2; OpPush node_b 1] frontier_cb).
  - vm_compute. reflexivity.
  - exact NoDup_1_2.
Defined.

(** * The exceptions of the frontier *)

Section heap_exceptions.
Context {A : Type}.
Variable lt : A -> A -> outcome bool.
Variable key : A -> Z.
Hypothesis lt_sound : forall a b r, lt a b = Ok r -> r = (key a <? key b).

(** The comparison raises nothing but [TypeError]. *)
Hypothesis lt_raises : forall a b e, lt a b = Raise e -> e = TypeError.

Lemma place_raise (h h' : list A) (pos : nat) (x : A) (e : exn) :
  (pos < length h)%nat -> place h pos x = (h', Raise e) -> False.
Proof. intros Hpos. by rewrite place_ok. Qed.

Lemma siftdown_loop_raise (fuel : nat) :
  forall (h h' : list A) (start pos : nat) (x : A) (e : exn),
    (pos < length h)%nat ->
    siftdown_loop lt fuel h start pos x = (h', Raise e) -> e = TypeError.
Proof.
  induction fuel as [|fuel IH]; intros h h' start pos x e Hpos Hrun;
    simpl in Hrun.
  { by apply place_raise in Hrun. }
  destruct (start <? pos)%nat eqn:Elt; [|by apply place_raise in Hrun].
  apply Nat.ltb_lt in Elt.
  pose proof (parent_pos_lt pos ltac:(lia)) as Hpp.
  destruct (lookup_lt_is_Some_2 h (parent_pos pos)) as [par Hpar]; [lia|].
  rewrite Hpar in Hrun.
  destruct (lt x par) as [[|]|e'] eqn:Hcmp.
  - rewrite setitem_ok in Hrun by done.
    apply IH in Hrun; [done|]. rewrite length_insert. lia.
  - by apply place_raise in Hrun.
  - injection Hrun as _ <-. by eapply lt_raises.
Qed.

Lemma siftdown_raise (h h' : list A) (start pos : nat) (e : exn) :
  (pos < length h)%nat ->
  siftdown lt h start pos = (h', Raise e) -> e = TypeError.
Proof.
  intros Hpos. unfold siftdown.
  destruct (lookup_lt_is_Some_2 h pos Hpos) as [x ->].
  by apply siftdown_loop_raise.
Qed.

Lemma smaller_child_raise (h : list A) (c : nat) (e : exn) :
  (c < length h)%nat ->
  smaller_child lt h (length h) c = Raise e -> e = TypeError.
Proof.
  intros Hc. unfold smaller_child.
  destruct (c + 1 <? length h)%nat eqn:Er; [|done].
  apply Nat.ltb_lt in Er.
  destruct (lookup_lt_is_Some_2 h c Hc) as [lc ->].
  destruct (lookup_lt_is_Some_2 h (c + 1) Er) as [rc ->].
  destruct (lt lc rc) as [r|e'] eqn:Hcmp; [done|].
  intros [= <-]. by eapply lt_raises.
Qed.

Lemma siftup_loop_raise (fuel : nat) :
  forall (h h' : list A) (pos : nat) (e : exn),
    (pos < length h)%nat ->
    siftup_loop lt fuel h (length h) pos = (h', Raise e) -> e = TypeError.
Proof.
  induction fuel as [|fuel IH]; intros h h' pos e Hpos Hrun; simpl in Hrun.
  { done. }
  change (pos + (pos + 0) + 1)%nat with (2 * pos + 1)%nat in Hrun.
  destruct (2 * pos + 1 <? length h)%nat eqn:Ec; [|done].
  apply Nat.ltb_lt in Ec.
  destruct (smaller_child lt h (length h) (2 * pos + 1)) as [c'|e'] eqn:Hsc.
  2:{ injection Hrun as _ <-. by eapply smaller_child_raise. }
  apply (smaller_child_inv lt key lt_sound) in Hsc as [Hc' _].
  destruct (lookup_lt_is_Some_2 h c') as [child Hchild]; [lia|].
  rewrite Hchild in Hrun. rewrite setitem_ok in Hrun by done.
  replace (length h) with (length (<[pos := child]> h)) in Hrun
    by apply length_insert.
  apply IH in Hrun; [done|]. rewrite length_insert. lia.
Qed.

Lemma siftup_raise (h h' : list A) (pos : nat) (e : exn) :
  (pos < length h)%nat ->
  siftup lt h pos = (h', Raise e) -> e = TypeError.
Proof.
  intros Hpos. unfold siftup.
  destruct (lookup_lt_is_Some_2 h pos Hpos) as [x ->].
  destruct (siftup_loop lt (length h) h (length h) pos) as [h1 [pos1|e']] eqn:Hloop.
  - apply (siftup_loop_perm lt key lt_sound) in Hloop as (Hlen & Hrange & _);
      [|done].
    rewrite place_ok by lia. apply siftdown_raise.
    rewrite length_insert. lia.
  - intros [= _ <-]. by eapply siftup_loop_raise.
Qed.

Lemma heapify_loop_raise (idxs : list nat) :
  forall (h h' : list A) (e : exn),
    Forall (fun i => (i < length h)%nat) idxs ->
    heapify_loop lt h idxs = (h', Raise e) -> e = TypeError.
Proof.
  induction idxs as [|i idxs IH]; intros h h' e Hidx Hrun; simpl in Hrun.
  { done. }
  apply Forall_cons in Hidx as [Hi Hidx].
  destruct (siftup lt h i) as [h1 [[]|e']] eqn:Hsift.
  - apply (siftup_perm lt key lt_sound) in Hsift.
    apply Permutation_length in Hsift.
    apply IH in Hrun; [done|].
    eapply Forall_impl; [exact Hidx|]. simpl. intros j Hj. lia.
  - injection Hrun as _ <-. by eapply siftup_raise.
Qed.

Lemma heapify_raise (h h' : list A) (e : exn) :
  heapify lt h = (h', Raise e) -> e = TypeError.
Proof.
  apply heapify_loop_raise. apply Forall_forall. intros i Hi.
  apply list_elem_of_In, in_rev, in_seq in Hi.
  pose proof (Nat.Div0.div_le_upper_bound (length h) 2 (length h)).
  pose proof (Nat.div_mod_eq (length h) 2). lia.
Qed.

Lemma heappush_raise (h h' : list A) (item : A) (e : exn) :
  heappush lt h item = (h', Raise e) -> e = TypeError.
Proof.
  unfold heappush. apply siftdown_raise. rewrite length_app. simpl. lia.
Qed.

Lemma heappop_raise (h h' : list A) (e : exn) :
  heappop lt h = (h', Raise e) ->
  (h = [] /\ e = IndexError) \/ (h <> [] /\ e = TypeError).
Proof.
  unfold heappop. destruct (last h) as [lastelt|] eqn:Hlast.
  - destruct (removelast h) as [|ret h1]; [done|].
    destruct (siftup lt _ 0) as [h2 [[]|e']] eqn:Hsift; [done|].
    intros [= _ <-]. right. split; [by intros ->|].
    eapply siftup_raise; [|exact Hsift]. simpl. lia.
  - apply last_None in Hlast. intros [= _ <-]. by left.
Qed.

End heap_exceptions.

Lemma entry_lt_raises (a b : entry) (e : exn) :
  entry_lt a b = Raise e -> e = TypeError.
Proof.
  unfold entry_lt. destruct (fst a =? fst b); [|done].
  destruct (same_object _ _); [done|]. by intros [= <-].
Qed.

Lemma replace_at_raise (d : nat) (x : SearchNode) (c : Z) (q q' : PriorityQ)
    (e : exn) :
  one_entry_per_state q ->
  replace_at (S (S d)) x c q = (q', Raise e) -> e = TypeError.
Proof.
  intros Hinv. cbn [replace_at].
  destruct (replace_scan_inv x q Hinv) as [-> Hinv1]. cbn [l s].
  destruct (heapify entry_lt (others x q)) as [l2 [[]|e']] eqn:Hfy.
  - rewrite push_at_absent by apply not_in_difference_singleton. cbn [l s].
    destruct (heappush entry_lt l2 (c, x)) as [l3 [[]|e']] eqn:Hpush; [done|].
    intros [= _ <-].
    by eapply (heappush_raise entry_lt entry_lt_raises).
  - intros [= _ <-].
    by eapply (heapify_raise entry_lt fst entry_lt_sound entry_lt_raises).
Qed.

Lemma push_at_raise (d : nat) (x : SearchNode) (c : Z) (q q' : PriorityQ)
    (e : exn) :
  one_entry_per_state q ->
  push_at (S (S (S d))) x c q = (q', Raise e) -> e = TypeError.
Proof.
  intros Hinv. destruct (decide (state x ∈ s q)) as [Hin|Hnot].
  - rewrite push_at_present by done. by apply replace_at_raise.
  - rewrite push_at_absent by done.
    destruct (heappush entry_lt (l q) (c, x)) as [l3 [[]|e']] eqn:Hpush; [done|].
    intros [= _ <-].
    by eapply (heappush_raise entry_lt entry_lt_raises).
Qed.

(** X17.  How the frontier can fail.  On a frontier that keeps one entry
    per state, [push] and [replace] raise nothing but [TypeError], and
    [pop] raises [IndexError] exactly when the frontier is empty and
    nothing but [TypeError] otherwise; so none of them raises [KeyError],
    [ValueError] or [RecursionError].  With pairwise distinct costs, the
    pushed cost included, none of them raises [TypeError] either. *)
Theorem frontier_exceptions (o : op) (q : PriorityQ) (e : exn) :
  one_entry_per_state q ->
  snd (run_op o q) = Raise e ->
  (e = IndexError /\ o = OpPop /\ l q = []) \/
  (e = TypeError /\ (o = OpPop -> l q <> []) /\
   match o with
   | OpPush x c | OpReplace x c => ~ NoDup (c :: costs_of (others x q))
   | OpPop => ~ NoDup (costs_of (l q))
   end).
Proof.
  intros Hinv. destruct o as [x c|x c|]; cbn [run_op].
  - unfold push, recursion_limit.
    destruct (push_at 1000 x c q) as [q' [[]|e']] eqn:Hrun; [done|].
    intros [= <-]. right.
    split; [by eapply (push_at_raise 997)|]. split; [done|].
    intros Hnd. destruct (push_at_ok 997 x c q Hinv Hnd) as [q'' Hok].
    congruence.
  - unfold replace, recursion_limit.
    destruct (replace_at 1000 x c q) as [q' [[]|e']] eqn:Hrun; [done|].
    intros [= <-]. right.
    split; [by eapply (replace_at_raise 998)|]. split; [done|].
    intros Hnd. destruct (replace_at_ok 998 x c q Hinv Hnd) as [q'' Hok].
    congruence.
  - destruct (pop q) as [q' [x|e']] eqn:Hpop; [done|].
    intros [= <-]. unfold pop in Hpop.
    destruct (heappop entry_lt (l q)) as [l' [y|e'']] eqn:Hhp.
    + exfalso. destruct Hinv as [_ Hset].
      pose proof (heappop_perm _ _ entry_lt_sound _ _ _ Hhp) as [Hroot _].
      unfold set_remove in Hpop.
      rewrite bool_decide_eq_true_2 in Hpop; [done|].
      rewrite Hset. apply elem_of_list_to_set. apply in_states_of.
      exists y. split; [|done]. by eapply list_elem_of_lookup_2.
    + injection Hpop as _ <-.
      apply (heappop_raise entry_lt fst entry_lt_sound entry_lt_raises) in Hhp
        as Hcase.
      destruct Hcase as [[Hl ->]|[Hl ->]]; [by left|]. right.
      split; [done|]. split; [done|].
      intros Hnd.
      destruct (heappop_ok entry_lt fst entry_lt_sound entry_lt_total (l q) Hl Hnd)
        as (l'' & y & Hok).
      congruence.
Qed.

Lemma frontier_exceptions_witness :
  (IndexError = IndexError /\ OpPop = OpPop /\ l PriorityQ_init = []) \/
  (IndexError = TypeError /\ (OpPop = OpPop -> l PriorityQ_init <> []) /\
   ~ NoDup (costs_of (l PriorityQ_init))).
Proof.
  apply (frontier_exceptions OpPop PriorityQ_init IndexError).
  - split; [constructor|reflexivity].
  - reflexivity.
Defined.

(** ** A membership set that has lost its list entry *)

Lemma replace_scan_absent (x : SearchNode) (q : PriorityQ) :
  state x ∉ states_of (l q) -> replace_scan x q = (q, Ok tt).
Proof.
  intros Hnot. unfold replace_scan.
  by destruct (scan_absent (l q) (state x) Hnot) as [-> _].
Qed.

Lemma push_replace_unbounded (depth : nat) (x : SearchNode) (c : Z)
    (st : gset State) :
  state x ∈ st ->
  forall es,
    state x ∉ states_of es -> NoDup (costs_of es) ->
    snd (push_at depth x c {| l := es; s := st |}) = Raise RecursionError /\
    snd (replace_at depth x c {| l := es; s := st |}) = Raise RecursionError.
Proof.
  intros Hin. induction depth as [|d IH]; intros es Hnot Hnd; [done|].
  assert (snd (replace_at (S d) x c {| l := es; s := st |})
          = Raise RecursionError) as Hrep.
  { cbn [replace_at]. rewrite replace_scan_absent by done. cbn [l s].
    destruct (heapify_ok entry_lt fst entry_lt_sound entry_lt_total es Hnd)
      as [es' Hfy].
    rewrite Hfy.
    pose proof (heapify_perm _ _ entry_lt_sound _ _ Hfy) as Hperm.
    apply IH.
    - unfold states_of. by rewrite Hperm.
    - unfold costs_of. by rewrite Hperm. }
  split; [|done].
  rewrite push_at_present by done.
  destruct d as [|d]; [done|]. apply IH; done.
Qed.

(** X18.  [push] and [replace] rely on the membership set.  When the set
    holds a state for which the list has no entry (the costs in the list
    being pairwise distinct), pushing or replacing a node of that state
    never reaches the insertion: the two methods call each other until
    [RecursionError]. *)
Theorem push_without_list_entry_recurses (x : SearchNode) (c : Z)
    (q : PriorityQ) :
  state x ∈ s q ->
  state x ∉ states_of (l q) ->
  NoDup (costs_of (l q)) ->
  snd (push x c q) = Raise RecursionError /\
  snd (replace x c q) = Raise RecursionError.
Proof.
  intros Hin Hnot Hnd. destruct q as [es st]. cbn [l s] in *.
  exact (push_replace_unbounded recursion_limit x c st Hin es Hnot Hnd).
Qed.

Lemma push_without_list_entry_recurses_witness :
  snd (push node_b 1 {| l := [(2, node_c)]; s := {[ (0, 1); (1, 0) ]} |})
  = Raise RecursionError /\
  snd (replace node_b 1 {| l := [(2, node_c)]; s := {[ (0, 1); (1, 0) ]} |})
  = Raise RecursionError.
Proof.
  apply (push_without_list_entry_recurses node_b 1
           {| l := [(2, node_c)]; s := {[ (0, 1); (1, 0) ]} |}).
  - simpl. apply elem_of_union_l. by apply elem_of_singleton.
  - simpl. intros H%list_elem_of_singleton. discriminate H.
  - apply NoDup_singleton.
Defined.
